(** * Telemetry ingestion of the orbit simulator (sdl_orbitsim.cpp)

    A shallow embedding of [createSocket], [getSatelliteData] and of the
    telemetry part of one iteration of the event loop of [main], together
    with the libc and kernel calls they make: [strtok], [atoi], [poll],
    [recv] and [connect].

    - Bytes are [ascii]; a buffer is a [list ascii]; a C string is the
      part of a buffer before its first NUL byte.
    - An [int] is a [Z]; [std::vector<int>] is a [list Z]; [push_back]
      appends at the end.
    - The kernel is a script: a list holding, for each turn of a loop,
      what [poll]/[recv] (or [connect]) answer on that turn, and the
      queue of bytes waiting on the socket.  A function that loops on
      the kernel's answers returns [None] when the script ends before
      the loop does.  Every call made is recorded in a trace. *)

From Stdlib Require Import ZArith Ascii String List Bool Lia.
Import ListNotations.

#[local] Open Scope Z_scope.

(** ** Bytes and C strings *)

Module CStr.

Definition code (c : ascii) : Z := Z.of_N (N_of_ascii c).

Definition bytes (s : string) : list ascii := list_ascii_of_string s.

Definition is_nul (c : ascii) : bool := code c =? 0.

(** The string a [char*] denotes: the bytes before the first NUL. *)
Fixpoint c_str (buf : list ascii) : list ascii :=
  match buf with
  | [] => []
  | c :: rest => if is_nul c then [] else c :: c_str rest
  end.

(** [isspace] in the C locale: space, \t, \n, \v, \f, \r. *)
Definition isspace (c : ascii) : bool :=
  (code c =? 32) || ((9 <=? code c) && (code c <=? 13)).

Definition isdigit (c : ascii) : bool :=
  (48 <=? code c) && (code c <=? 57).

Fixpoint skip_spaces (s : list ascii) : list ascii :=
  match s with
  | [] => []
  | c :: rest => if isspace c then skip_spaces rest else s
  end.

(** The digit loop of [strtol] in base 10: the value of the longest
    prefix of digits, accumulated from [acc]. *)
Fixpoint digits_value (acc : Z) (s : list ascii) : Z :=
  match s with
  | [] => acc
  | c :: rest =>
      if isdigit c then digits_value (10 * acc + (code c - 48)) rest
      else acc
  end.

(** [atoi]: leading white space is skipped, then an optional sign, then
    the longest run of decimal digits; no digit at all gives 0.  The
    result is the exact value, which is what [atoi] returns when that
    value fits an [int]; outside that range C leaves [atoi] undefined.
    [atoi_fits_int] below shows that the tokens this program converts
    always fit, and the properties stated of [atoi] keep to values
    that fit. *)
Definition atoi (s : list ascii) : Z :=
  let t := skip_spaces s in
  match t with
  | c :: rest =>
      if code c =? 45 then - digits_value 0 rest
      else if code c =? 43 then digits_value 0 rest
      else digits_value 0 t
  | [] => 0
  end.

(** The only delimiter the program passes to [strtok] is ",". *)
Definition is_delim (c : ascii) : bool := code c =? 44.

(** [strspn(s, ",")]: drop the leading delimiters. *)
Fixpoint skip_delims (s : list ascii) : list ascii :=
  match s with
  | [] => []
  | c :: rest => if is_delim c then skip_delims rest else s
  end.

(** [strcspn] and the cut: the token runs up to the next delimiter, which
    [strtok] overwrites with NUL; the saved position is the byte after
    it (or the end of the string). *)
Fixpoint cut_token (s : list ascii) : list ascii * list ascii :=
  match s with
  | [] => ([], [])
  | c :: rest =>
      if is_delim c then ([], rest)
      else let (tok, save) := cut_token rest in (c :: tok, save)
  end.

(** One call of [strtok(_, ",")] on the string at the saved position:
    [None] is the null pointer, otherwise the token and the new saved
    position. *)
Definition strtok (s : list ascii) : option (list ascii * list ascii) :=
  match skip_delims s with
  | [] => None
  | t => Some (cut_token t)
  end.

End CStr.

Import CStr.

(** ** The parsing loop of getSatelliteData (lines 204-211) *)

(** [while (token) { sat_params.push_back(atoi(token));
                     token = strtok(NULL, ","); ++idx; }]
    Every turn consumes at least one byte of the string, so
    [S (length buf)] turns are enough ([parse_loop_enough]). *)
Fixpoint parse_loop (turns : nat) (token : option (list ascii * list ascii))
    (sat_params : list Z) : list Z :=
  match turns with
  | O => sat_params
  | S turns' =>
      match token with
      | None => sat_params
      | Some (tok, save) =>
          parse_loop turns' (strtok save) (sat_params ++ [atoi tok])
      end
  end.

(** [buf[bytes_received] = '\0'; token = strtok(buf, ","); ...] on the
    bytes [recv] wrote; [sat_params] is the vector as it stands when the
    loop starts, which in getSatelliteData is the empty one. *)
Definition parse_into (sat_params : list Z) (received : list ascii) : list Z :=
  let buf := c_str received in
  parse_loop (S (length buf)) (strtok buf) sat_params.

Definition parse_params (received : list ascii) : list Z :=
  parse_into [] received.

(** The tokens [strtok] hands out, as a structural function: the maximal
    non-empty runs of bytes other than ','.  Used to state what the loop
    computes. *)
Fixpoint tokens_from (cur : list ascii) (s : list ascii) : list (list ascii) :=
  match s with
  | [] => match cur with [] => [] | _ => [rev cur] end
  | c :: rest =>
      if is_delim c then
        match cur with
        | [] => tokens_from [] rest
        | _ => rev cur :: tokens_from [] rest
        end
      else tokens_from (c :: cur) rest
  end.

Definition tokens (s : list ascii) : list (list ascii) := tokens_from [] s.

(** ** The kernel, as getSatelliteData sees it *)

(** Values of <sys/poll.h>, <errno.h> and <fcntl.h> on Linux. *)
Definition POLLIN : Z := 1.
Definition EWOULDBLOCK : Z := 11.
Definition ENOENT : Z := 2.
Definition ECONNREFUSED : Z := 111.
Definition O_NONBLOCK : Z := 2048.

(** [sizeof(buf)] inside getSatelliteData, where [buf] is the parameter
    [char* buf]: the size of a pointer, 8 on the LP64 targets the
    program builds for, whatever array the caller passes. *)
Definition sizeof_buf : Z := 8.

(** The array [char buffer[1024]] of main. *)
Definition sizeof_buffer : Z := 1024.

(** What [recv] answers when it is called. *)
Inductive recv_answer : Type :=
| recv_fails (errno : Z)   (* returns -1 and sets errno *)
| recv_delivers.           (* copies queued bytes; 0 when none are left:
                              the peer has closed *)

(** What the kernel answers on one turn of the loop of getSatelliteData. *)
Inductive turn : Type :=
| poll_fails (errno : Z)                         (* poll returns -1 *)
| poll_times_out                                 (* poll returns 0 *)
| poll_reports (revents : Z) (r : recv_answer).  (* poll returns 1 *)

(** The socket: the bytes queued for reading, in order of arrival, and
    the kernel's answers to come. *)
Record world : Type := mkWorld {
  rx : list ascii;
  script : list turn
}.

Inductive syscall : Type :=
| sys_poll (timeout_ms : Z)
| sys_recv (len : Z).

(** [recv(fd, buf, len, 0)] on a stream socket that delivers: the first
    [len] queued bytes (all of them if fewer) and the queue left. *)
Definition recv (len : Z) (queue : list ascii) : list ascii * list ascii :=
  (firstn (Z.to_nat len) queue, skipn (Z.to_nat len) queue).

(** What one call of getSatelliteData leaves behind. *)
Record call : Type := mkCall {
  ret : list Z;            (* the vector returned *)
  after : world;           (* the socket after the call *)
  trace : list syscall     (* the system calls made, in order *)
}.

(** ** getSatelliteData (lines 150-221) *)

(** The [while (true)] loop.  [sat_params] is the local vector, [tr] the
    calls made so far. *)
Fixpoint poll_loop (answers : list turn) (queue : list ascii)
    (default_params sat_params : list Z) (tr : list syscall) : option call :=
  match answers with
  | [] => None
  | t :: answers' =>
      let tr1 := tr ++ [sys_poll 10] in
      match t with
      | poll_fails _ =>
          (* ret == -1: break *)
          Some (mkCall sat_params (mkWorld queue answers') tr1)
      | poll_times_out =>
          (* ret == 0: sat_params = default_params; break *)
          Some (mkCall default_params (mkWorld queue answers') tr1)
      | poll_reports revents r =>
          if Z.land revents POLLIN =? 0 then
            (* no POLLIN: the else branch, then the next turn *)
            poll_loop answers' queue default_params sat_params tr1
          else
            let tr2 := tr1 ++ [sys_recv (sizeof_buf - 1)] in
            match r with
            | recv_fails errno =>
                if errno =? EWOULDBLOCK then
                  (* continue *)
                  poll_loop answers' queue default_params sat_params tr2
                else
                  (* break *)
                  Some (mkCall sat_params (mkWorld queue answers') tr2)
            | recv_delivers =>
                let (received, queue') := recv (sizeof_buf - 1) queue in
                match received with
                | [] =>
                    (* bytes_received == 0: break *)
                    Some (mkCall sat_params (mkWorld queue answers') tr2)
                | _ =>
                    (* parse and return sat_params *)
                    Some (mkCall (parse_into sat_params received)
                                 (mkWorld queue' answers') tr2)
                end
            end
      end
  end.

(** [std::vector<int> sat_params;] then the loop; after a [break] the
    function returns [sat_params] as it stands. *)
Definition getSatelliteData (w : world) (default_params : list Z) : option call :=
  poll_loop (script w) (rx w) default_params [] [].

(** ** One turn of the event loop of main (lines 271-280) *)

Record sim : Type := mkSim {
  angle : Z;
  sat_params : list Z
}.

Definition INT_MIN : Z := - 2 ^ 31.
Definition INT_MAX : Z := 2 ^ 31 - 1.

Inductive tick : Type :=
| tick_done (s : sim) (w : world) (tr : list syscall)
| tick_out_of_bounds (index : nat) (state : list Z)
    (* [sat_params[index]] read past the end of the vector *)
| tick_overflow (s : sim)
    (* [angle += sat_params[0]] leaves the range of int *)
| tick_waiting.
    (* getSatelliteData has not returned within the script *)

(** [if (sat_params.empty()) sat_params = {2,10};] *)
Definition refill (state : list Z) : list Z :=
  match state with
  | [] => [2; 10]
  | _ => state
  end.

(** The telemetry part of one turn: refill an empty state, poll, read
    [sat_params[1]] for the position, then [angle += sat_params[0]]. *)
Definition main_tick (s : sim) (w : world) : tick :=
  match getSatelliteData w (refill (sat_params s)) with
  | None => tick_waiting
  | Some c =>
      let state := ret c in
      match nth_error state 1 with
      | None => tick_out_of_bounds 1 state
      | Some _altitude =>
          match nth_error state 0 with
          | None => tick_out_of_bounds 0 state
          | Some speed =>
              let angle' := angle s + speed in
              if (INT_MIN <=? angle') && (angle' <=? INT_MAX)
              then tick_done (mkSim angle' state) (after c) (trace c)
              else tick_overflow s
          end
      end
  end.

(** ** createSocket (lines 68-122) *)

Inductive connect_answer : Type :=
| connect_ok
| connect_fails (errno : Z).

(** What the kernel answers to createSocket: the value of [socket], of
    the two [fcntl] calls, and of each [connect] in turn. *)
Record conn_env : Type := mkConnEnv {
  socket_ret : Z;
  getfl_ret : Z;
  setfl_ret : Z;
  connects : list connect_answer
}.

Inductive conn_call : Type :=
| c_socket
| c_getfl
| c_setfl (flags : Z)
| c_connect
| c_delay (ms : Z)
| c_close (fd : Z).

(** The [while (!connected)] loop; [fallback] is the patience counter.
    The result is the value createSocket returns. *)
Fixpoint connect_loop (answers : list connect_answer) (client_socket fallback : Z)
    (tr : list conn_call) : option (Z * list conn_call) :=
  match answers with
  | [] => None
  | a :: answers' =>
      let tr1 := tr ++ [c_connect] in
      match a with
      | connect_ok =>
          (* connected = True; the loop ends; return client_socket *)
          Some (client_socket, tr1)
      | connect_fails errno =>
          if (errno =? ENOENT) || (errno =? ECONNREFUSED) then
            if fallback >? 2 then Some (0, tr1)
            else connect_loop answers' client_socket (fallback + 1)
                   (tr1 ++ [c_delay 1000])
          else Some (1, tr1 ++ [c_close client_socket])
      end
  end.

Definition createSocket (env : conn_env) : option (Z * list conn_call) :=
  if socket_ret env =? -1 then Some (1, [c_socket])
  else
    let tr := [c_socket; c_getfl; c_setfl (Z.lor (getfl_ret env) O_NONBLOCK)] in
    if setfl_ret env =? -1 then Some (1, tr)
    else connect_loop (connects env) (socket_ret env) 0 tr.

(** The values createSocket returns when it does not return the
    descriptor: 1 on the three error paths (lines 73, 89, 110), 0 when
    patience runs out (line 101). *)
Definition RET_FATAL : Z := 1.
Definition RET_EXHAUSTED : Z := 0.

Definition transient (a : connect_answer) : Prop :=
  a = connect_fails ENOENT \/ a = connect_fails ECONNREFUSED.

Definition count_connects (tr : list conn_call) : nat :=
  List.length (filter (fun c => match c with c_connect => true | _ => false end) tr).

Definition count_retries (tr : list conn_call) : nat :=
  List.length (filter (fun c => match c with c_delay _ => true | _ => false end) tr).

Definition count_closes (tr : list conn_call) : nat :=
  List.length (filter (fun c => match c with c_close _ => true | _ => false end) tr).

Definition count_polls (tr : list syscall) : nat :=
  List.length (filter (fun c => match c with sys_poll _ => true | _ => false end) tr).

Definition count_recvs (tr : list syscall) : nat :=
  List.length (filter (fun c => match c with sys_recv _ => true | _ => false end) tr).

(** ** Decimal integers on the wire *)

(** A decimal integer as the producer writes it: an optional minus sign
    and a run of digits, most significant first. *)
Record literal : Type := mkLiteral {
  negative : bool;
  digits : list nat
}.

Definition valid_literal (l : literal) : Prop :=
  digits l <> [] /\ Forall (fun d => (d < 10)%nat) (digits l).

Definition digit_char (d : nat) : ascii := ascii_of_nat (48 + d).

Definition render (l : literal) : list ascii :=
  (if negative l then ["-"%char] else []) ++ map digit_char (digits l).

(** The value of a run of digits, by position. *)
Fixpoint decimal (ds : list nat) : Z :=
  match ds with
  | [] => 0
  | d :: rest => Z.of_nat d * 10 ^ Z.of_nat (List.length rest) + decimal rest
  end.

Definition literal_value (l : literal) : Z :=
  if negative l then - decimal (digits l) else decimal (digits l).

Definition fits_int (z : Z) : Prop := INT_MIN <= z <= INT_MAX.

Fixpoint join_commas (toks : list (list ascii)) : list ascii :=
  match toks with
  | [] => []
  | [t] => t
  | t :: rest => t ++ ","%char :: join_commas rest
  end.

(** A token in which [atoi] finds no integer: after the white space and
    an optional sign, the next byte is not a digit. *)
Definition starts_with_digit (s : list ascii) : bool :=
  match s with
  | c :: _ => isdigit c
  | [] => false
  end.


(** A turn after which the loop of getSatelliteData goes round again:
    readiness without POLLIN, or a read that would block. *)
Definition loops_again (t : turn) : bool :=
  match t with
  | poll_reports revents r =>
      if Z.land revents POLLIN =? 0 then true
      else match r with
           | recv_fails errno => errno =? EWOULDBLOCK
           | recv_delivers => false
           end
  | _ => false
  end.

(** The calls a turn makes. *)
Definition turn_calls (t : turn) : list syscall :=
  match t with
  | poll_reports revents _ =>
      if Z.land revents POLLIN =? 0 then [sys_poll 10]
      else [sys_poll 10; sys_recv (sizeof_buf - 1)]
  | _ => [sys_poll 10]
  end.

(** A token as it can stand between commas: not empty, holding neither
    a comma nor a NUL. *)
Definition plain (tok : list ascii) : Prop :=
  tok <> [] /\ Forall (fun c => is_delim c = false /\ is_nul c = false) tok.

Definition recv_lens (tr : list syscall) : list Z :=
  flat_map (fun c => match c with sys_recv n => [n] | _ => [] end) tr.

Definition poll_timeouts (tr : list syscall) : list Z :=
  flat_map (fun c => match c with sys_poll n => [n] | _ => [] end) tr.

(** A last turn after which getSatelliteData returns its vector as it
    was declared, empty: a failed wait, a failed read that is not a
    would-block, or a read of zero bytes. *)
Definition leaves_empty (t : turn) (queue : list ascii) : bool :=
  match t with
  | poll_fails _ => true
  | poll_times_out => false
  | poll_reports revents r =>
      negb (Z.land revents POLLIN =? 0) &&
      match r with
      | recv_fails errno => negb (errno =? EWOULDBLOCK)
      | recv_delivers => match queue with [] => true | _ => false end
      end
  end.

(** ** The event loop of main over several turns (lines 251-283) *)

(** [turns] turns of the [while(true)] loop in which no SDL_QUIT event
    arrives: the state and the socket of one turn are those the turn
    before left; a turn that faults ends the run. [tr] collects the
    system calls. *)
Fixpoint main_loop (turns : nat) (s : sim) (w : world) (tr : list syscall) : tick :=
  match turns with
  | O => tick_done s w tr
  | S turns' =>
      match main_tick s w with
      | tick_done s' w' tr' => main_loop turns' s' w' (tr ++ tr')
      | fault => fault
      end
  end.

(** ** drawFilledCircle (lines 32-44) *)

(** [for (int i = 0; i < n; ++i) body(i)], the effects of the turns put
    end to end. *)
Definition for_range {A : Type} (n : Z) (body : Z -> list A) : list A :=
  flat_map body (map Z.of_nat (seq 0 (Z.to_nat n))).

(** [pow(x, 2)] for an int [x] converted to double. The square of an
    integer below 2^26 in absolute value is below 2^52 and is a double,
    so the result is the exact square; the properties below keep to that
    range. *)
Definition pow2 (x : Z) : Z := x * x.

(** The int coordinates computed for SDL_RenderDrawPointF, in the order
    of the calls. The function takes floats: the point drawn is the
    one computed as long as the coordinates are at most 2^24 in absolute
    value ([floats_exact]), and the properties below keep to that
    range. The colour and the renderer do not bear on which points are
    drawn. *)
Definition drawFilledCircle (centre_x centre_y radius : Z) : list (Z * Z) :=
  let diameter := radius * 2 in
  for_range diameter (fun w =>
    for_range diameter (fun h =>
      let dx := radius - w in
      let dy := radius - h in
      if pow2 dx + pow2 dy <=? pow2 radius
      then [(centre_x + dx, centre_y + dy)]
      else [])).

(** The radius up to which the arithmetic of drawFilledCircle is exact
    and stays within int. *)
Definition RADIUS_MAX : Z := 2 ^ 25.

(** A turn on which the wait reports POLLIN and the read fails with
    EWOULDBLOCK: the [continue] of line 185. *)
Definition would_block (t : turn) : bool :=
  match t with
  | poll_reports revents (recv_fails errno) =>
      negb (Z.land revents POLLIN =? 0) && (errno =? EWOULDBLOCK)
  | _ => false
  end.

(** The integers up to 2^24 in absolute value are floats: below this
    bound the int coordinates drawFilledCircle computes reach
    SDL_RenderDrawPointF unchanged, and neither [radius * 2] nor
    [centre + d] leaves the range of int. *)
Definition FLOAT_EXACT : Z := 2 ^ 24.

Definition floats_exact (centre_x centre_y radius : Z) : Prop :=
  Z.abs centre_x + Z.abs radius <= FLOAT_EXACT /\
  Z.abs centre_y + Z.abs radius <= FLOAT_EXACT.

(** * Properties *)

(** ** strtok and the parsing loop *)

Section Tokens.

Lemma skip_delims_head (s : list ascii) c r :
  skip_delims s = c :: r -> is_delim c = false.
Proof.
  induction s as [|a s IH]; simpl; [discriminate|].
  destruct (is_delim a) eqn:E; [exact IH|].
  intros H; inversion H; subst; exact E.
Qed.

Lemma skip_delims_length (s : list ascii) :
  (List.length (skip_delims s) <= List.length s)%nat.
Proof.
  induction s as [|a s IH]; simpl; [lia|].
  destruct (is_delim a); simpl; lia.
Qed.

Lemma cut_token_length (s : list ascii) tok save :
  cut_token s = (tok, save) -> (List.length save <= List.length s)%nat.
Proof.
  revert tok save; induction s as [|a s IH]; simpl; intros tok save H.
  - inversion H; simpl; lia.
  - destruct (is_delim a).
    + inversion H; subst; lia.
    + destruct (cut_token s) as [t sv] eqn:E.
      inversion H; subst. specialize (IH _ _ eq_refl). lia.
Qed.

(** Each call of strtok that finds a token moves the saved position
    forward. *)
Lemma strtok_shorter (s : list ascii) tok save :
  strtok s = Some (tok, save) -> (List.length save < List.length s)%nat.
Proof.
  unfold strtok. pose proof (skip_delims_length s) as L.
  destruct (skip_delims s) as [|a l] eqn:E; [discriminate|].
  pose proof (skip_delims_head _ _ _ E) as D.
  simpl. rewrite D. destruct (cut_token l) as [t sv] eqn:C.
  intros H; inversion H; subst.
  apply cut_token_length in C. simpl in L. lia.
Qed.

Lemma tokens_from_cut (s : list ascii) : forall cur tok save,
  cut_token s = (tok, save) ->
  tokens_from cur s =
    match rev cur ++ tok with
    | [] => tokens save
    | x => x :: tokens save
    end.
Proof.
  induction s as [|a s IH]; simpl; intros cur tok save H.
  - inversion H; subst. rewrite app_nil_r.
    destruct cur as [|c cur]; [reflexivity|].
    destruct (rev (c :: cur)) eqn:R; [|reflexivity].
    apply (f_equal (@List.length ascii)) in R.
    rewrite length_rev in R. discriminate.
  - destruct (is_delim a).
    + inversion H; subst. rewrite app_nil_r.
      destruct cur as [|c cur]; [reflexivity|].
      destruct (rev (c :: cur)) eqn:R; [|reflexivity].
      apply (f_equal (@List.length ascii)) in R.
      rewrite length_rev in R. discriminate.
    + destruct (cut_token s) as [t sv] eqn:C.
      inversion H; subst.
      rewrite (IH (a :: cur) t save eq_refl). simpl.
      rewrite <- app_assoc. reflexivity.
Qed.

Lemma tokens_skip_delims (s : list ascii) :
  tokens (skip_delims s) = tokens s.
Proof.
  unfold tokens. induction s as [|a s IH]; simpl; [reflexivity|].
  destruct (is_delim a) eqn:E; [exact IH|].
  simpl. rewrite E. reflexivity.
Qed.

Lemma strtok_none (s : list ascii) :
  strtok s = None -> tokens s = [].
Proof.
  unfold strtok. intros H. rewrite <- tokens_skip_delims.
  destruct (skip_delims s); [reflexivity|discriminate].
Qed.

Lemma strtok_some (s : list ascii) tok save :
  strtok s = Some (tok, save) -> tokens s = tok :: tokens save.
Proof.
  unfold strtok. intros H. rewrite <- tokens_skip_delims.
  destruct (skip_delims s) as [|a l] eqn:E; [discriminate|].
  pose proof (skip_delims_head _ _ _ E) as D.
  assert (C : cut_token (a :: l) = (tok, save)) by congruence.
  unfold tokens. rewrite (tokens_from_cut _ [] tok save C).
  cbn [cut_token] in C. rewrite D in C. destruct (cut_token l).
  inversion C; subst. reflexivity.
Qed.

(** The loop pushes the value of every token, in order, and the turns
    allowed in [parse_into] are enough to reach the end of the string. *)
Lemma parse_loop_enough (n : nat) : forall s acc,
  (List.length s < n)%nat ->
  parse_loop n (strtok s) acc = acc ++ map atoi (tokens s).
Proof.
  induction n as [|n IH]; intros s acc L; [lia|].
  simpl. destruct (strtok s) as [[tok save]|] eqn:E.
  - pose proof (strtok_shorter _ _ _ E) as Sh.
    rewrite IH by lia. rewrite (strtok_some _ _ _ E). simpl.
    rewrite <- app_assoc. reflexivity.
  - rewrite (strtok_none _ E). simpl. rewrite app_nil_r. reflexivity.
Qed.

Lemma parse_into_tokens (acc : list Z) (received : list ascii) :
  parse_into acc received = acc ++ map atoi (tokens (c_str received)).
Proof.
  unfold parse_into. apply parse_loop_enough. lia.
Qed.

Lemma parse_params_tokens (received : list ascii) :
  parse_params received = map atoi (tokens (c_str received)).
Proof.
  unfold parse_params. rewrite parse_into_tokens. reflexivity.
Qed.

End Tokens.

(** ** atoi *)

Section Atoi.

Lemma digit_char_code (d : nat) :
  (d < 10)%nat -> code (digit_char d) = 48 + Z.of_nat d.
Proof.
  intros H. do 10 (destruct d as [|d]; [reflexivity|]). lia.
Qed.

Lemma digit_char_isdigit (d : nat) : (d < 10)%nat -> isdigit (digit_char d) = true.
Proof.
  intros H. unfold isdigit. rewrite (digit_char_code d H).
  apply andb_true_intro; split; apply Z.leb_le; lia.
Qed.

Lemma digit_char_kind (d : nat) :
  (d < 10)%nat ->
  isspace (digit_char d) = false /\ is_delim (digit_char d) = false /\
  is_nul (digit_char d) = false /\
  (code (digit_char d) =? 45) = false /\ (code (digit_char d) =? 43) = false.
Proof.
  intros H. unfold isspace, is_delim, is_nul. rewrite (digit_char_code d H).
  repeat split;
    repeat match goal with
      | |- (_ || _) = false => apply orb_false_intro
      | |- (_ && _) = false => apply andb_false_intro2
      | |- (_ =? _) = false => apply Z.eqb_neq; lia
      | |- (_ <=? _) = false => apply Z.leb_gt; lia
      end.
Qed.

(** The digit loop computes the positional value. *)
Lemma digits_value_decimal (ds : list nat) : forall acc,
  Forall (fun d => (d < 10)%nat) ds ->
  digits_value acc (map digit_char ds) =
    acc * 10 ^ Z.of_nat (List.length ds) + decimal ds.
Proof.
  induction ds as [|d ds IH]; intros acc F.
  - cbn [map digits_value decimal List.length]. change (Z.of_nat 0) with 0. lia.
  - inversion F as [|? ? Hd F']; subst.
    cbn [map digits_value].
    rewrite (digit_char_isdigit d Hd), (digit_char_code d Hd), (IH _ F').
    cbn [decimal List.length]. rewrite Nat2Z.inj_succ, Z.pow_succ_r by lia. ring.
Qed.

Lemma minus_char_kind :
  isspace "-"%char = false /\ (code "-"%char =? 45) = true.
Proof. split; reflexivity. Qed.

Lemma atoi_render (l : literal) :
  valid_literal l -> atoi (render l) = literal_value l.
Proof.
  destruct l as [neg ds]. unfold valid_literal, render, literal_value.
  cbn [negative digits]. intros [NE F]. destruct neg; cbn [app].
  - destruct minus_char_kind as [Sp M].
    unfold atoi. cbn [skip_spaces]. rewrite Sp, M.
    rewrite (digits_value_decimal ds 0 F). lia.
  - destruct ds as [|d ds]; [congruence|].
    inversion F as [|? ? Hd F']; subst.
    destruct (digit_char_kind d Hd) as (Sp & _ & _ & M & P).
    unfold atoi. cbn [map skip_spaces]. rewrite Sp, M, P.
    change (digit_char d :: map digit_char ds) with (map digit_char (d :: ds)).
    rewrite (digits_value_decimal (d :: ds) 0 F). lia.
Qed.

Lemma isdigit_range (c : ascii) : isdigit c = true -> 0 <= code c - 48 <= 9.
Proof.
  unfold isdigit. intros H. apply andb_prop in H. destruct H as [A B].
  apply Z.leb_le in A. apply Z.leb_le in B. lia.
Qed.

Lemma digits_value_bound (s : list ascii) : forall acc,
  0 <= acc ->
  acc <= digits_value acc s < (acc + 1) * 10 ^ Z.of_nat (List.length s).
Proof.
  induction s as [|c s IH]; intros acc A.
  - simpl. lia.
  - cbn [digits_value List.length]. rewrite Nat2Z.inj_succ, Z.pow_succ_r by lia.
    assert (P : 0 < 10 ^ Z.of_nat (List.length s)) by (apply Z.pow_pos_nonneg; lia).
    destruct (isdigit c) eqn:D.
    + apply isdigit_range in D.
      specialize (IH (10 * acc + (code c - 48)) ltac:(lia)). nia.
    + nia.
Qed.

Lemma skip_spaces_length (s : list ascii) :
  (List.length (skip_spaces s) <= List.length s)%nat.
Proof.
  induction s as [|a s IH]; simpl; [lia|].
  destruct (isspace a); simpl; lia.
Qed.

(** A token of at most seven bytes converts to an integer of at most
    seven digits, well inside the range of int. *)
Lemma atoi_fits_int (tok : list ascii) :
  (List.length tok <= 7)%nat -> fits_int (atoi tok).
Proof.
  intros L. unfold atoi. pose proof (skip_spaces_length tok) as K.
  assert (B : forall s : list ascii, (List.length s <= 7)%nat ->
            0 <= digits_value 0 s < 10 ^ 7).
  { intros s Ls. pose proof (digits_value_bound s 0 ltac:(lia)) as H.
    assert (10 ^ Z.of_nat (List.length s) <= 10 ^ 7)
      by (apply Z.pow_le_mono_r; lia). lia. }
  assert (T : 10 ^ 7 = 10000000) by reflexivity.
  unfold fits_int, INT_MIN, INT_MAX.
  assert (T31 : 2 ^ 31 = 2147483648) by reflexivity.
  destruct (skip_spaces tok) as [|c rest] eqn:E; [lia|].
  simpl in K.
  pose proof (B rest ltac:(lia)). pose proof (B (c :: rest) ltac:(simpl; lia)).
  destruct (code c =? 45); [lia|]. destruct (code c =? 43); lia.
Qed.


End Atoi.

(** ** Messages of decimal integers *)

Section Wire.

Lemma tokens_from_plain (tok : list ascii) : forall cur rest,
  Forall (fun c => is_delim c = false) tok ->
  tokens_from cur (tok ++ rest) = tokens_from (rev tok ++ cur) rest.
Proof.
  induction tok as [|a tok IH]; intros cur rest F; [reflexivity|].
  inversion F as [|? ? Ha F']; subst.
  cbn [app tokens_from rev]. rewrite Ha, (IH _ _ F'), <- app_assoc.
  reflexivity.
Qed.

Lemma plain_no_delim (tok : list ascii) :
  plain tok -> Forall (fun c => is_delim c = false) tok.
Proof.
  intros [_ F]. eapply Forall_impl; [|exact F]. intros c [H _]; exact H.
Qed.

Lemma rev_plain_cons (tok : list ascii) :
  plain tok -> exists c r, rev tok = c :: r.
Proof.
  intros [NE _]. destruct (rev tok) as [|c r] eqn:R; [|eauto].
  apply (f_equal (@rev ascii)) in R. rewrite rev_involutive in R.
  contradiction.
Qed.

Lemma tokens_join (toks : list (list ascii)) :
  Forall plain toks -> tokens (join_commas toks) = toks.
Proof.
  induction toks as [|t toks IH]; intros F; [reflexivity|].
  inversion F as [|? ? Pt F']; subst.
  pose proof (plain_no_delim t Pt) as ND.
  destruct (rev_plain_cons t Pt) as (c & r & R).
  destruct toks as [|t2 rest].
  - cbn [join_commas]. unfold tokens.
    rewrite <- (app_nil_r t) at 1. rewrite (tokens_from_plain t [] [] ND).
    rewrite app_nil_r. cbn [tokens_from]. rewrite R, <- R, rev_involutive.
    reflexivity.
  - cbn [join_commas]. unfold tokens.
    rewrite (tokens_from_plain t [] _ ND). rewrite app_nil_r.
    cbn [tokens_from].
    replace (is_delim ","%char) with true by reflexivity.
    rewrite R, <- R, rev_involutive. f_equal. exact (IH F').
Qed.

Lemma c_str_app (tok rest : list ascii) :
  Forall (fun c => is_nul c = false) tok ->
  c_str (tok ++ rest) = tok ++ c_str rest.
Proof.
  induction tok as [|a tok IH]; intros F; [reflexivity|].
  inversion F as [|? ? Ha F']; subst.
  cbn [app c_str]. rewrite Ha, (IH F'). reflexivity.
Qed.

Lemma c_str_join (toks : list (list ascii)) :
  Forall plain toks -> c_str (join_commas toks) = join_commas toks.
Proof.
  induction toks as [|t toks IH]; intros F; [reflexivity|].
  inversion F as [|? ? Pt F']; subst.
  assert (NN : Forall (fun c => is_nul c = false) t).
  { destruct Pt as [_ G]. eapply Forall_impl; [|exact G].
    intros c [_ H]; exact H. }
  destruct toks as [|t2 rest].
  - cbn [join_commas]. rewrite <- (app_nil_r t) at 1.
    rewrite (c_str_app t [] NN). cbn [c_str]. apply app_nil_r.
  - cbn [join_commas]. rewrite (c_str_app t _ NN). f_equal.
    cbn [c_str]. replace (is_nul ","%char) with false by reflexivity.
    f_equal. exact (IH F').
Qed.

Lemma render_plain (l : literal) : valid_literal l -> plain (render l).
Proof.
  destruct l as [neg ds]. unfold valid_literal, render, plain.
  cbn [negative digits]. intros [NE F]. split.
  - destruct neg; [discriminate|]. destruct ds; [congruence|discriminate].
  - apply Forall_app. split.
    + destruct neg; constructor; [split; reflexivity|constructor].
    + apply Forall_map. eapply Forall_impl; [|exact F].
      intros d Hd. cbv beta. destruct (digit_char_kind d Hd) as (_ & D & N & _).
      split; assumption.
Qed.

Lemma tokens_from_length (s : list ascii) : forall cur,
  Forall (fun t => (List.length t <= List.length cur + List.length s)%nat)
    (tokens_from cur s).
Proof.
  induction s as [|c s IH]; intros cur; cbn [tokens_from].
  - destruct cur as [|a cur]; constructor; [|constructor].
    rewrite length_rev. lia.
  - destruct (is_delim c).
    + assert (T : Forall (fun t => (List.length t <=
                   List.length cur + List.length (c :: s))%nat)
                  (tokens_from [] s)).
      { eapply Forall_impl; [|exact (IH [])]. cbn [List.length]. intros; lia. }
      destruct cur as [|a cur]; [exact T|].
      constructor; [rewrite length_rev; lia|exact T].
    + eapply Forall_impl; [|exact (IH (c :: cur))].
      cbn [List.length]. intros; lia.
Qed.

Lemma c_str_length (buf : list ascii) :
  (List.length (c_str buf) <= List.length buf)%nat.
Proof.
  induction buf as [|a buf IH]; cbn [c_str List.length]; [lia|].
  destruct (is_nul a); cbn [List.length]; lia.
Qed.

(** Whatever is queued on the socket, the integers one call parses out
    of it fit an int: the conversion never leaves the range in which
    [atoi] is defined. *)
Lemma received_values_fit (queue : list ascii) :
  Forall fits_int (parse_params (fst (recv (sizeof_buf - 1) queue))).
Proof.
  rewrite parse_params_tokens. apply Forall_map.
  cbn [recv fst]. set (received := firstn _ queue).
  assert (L : (List.length received <= 7)%nat).
  { unfold received. rewrite length_firstn.
    change (Z.to_nat (sizeof_buf - 1)) with 7%nat. lia. }
  pose proof (c_str_length received) as C.
  eapply Forall_impl; [|exact (tokens_from_length (c_str received) [])].
  intros t Ht. apply atoi_fits_int. cbn [List.length] in Ht. lia.
Qed.

End Wire.

(** ** The loop of getSatelliteData *)

Section Loop.

Lemma poll_loop_skip (pre : list turn) : forall rest q d s tr,
  forallb loops_again pre = true ->
  poll_loop (pre ++ rest) q d s tr =
  poll_loop rest q d s (tr ++ concat (map turn_calls pre)).
Proof.
  induction pre as [|t pre IH]; intros rest q d s tr F.
  - cbn. rewrite app_nil_r. reflexivity.
  - cbn [forallb] in F. apply andb_prop in F. destruct F as [Lt F].
    cbn [app poll_loop map concat].
    destruct t as [e| |revents r]; try discriminate.
    cbn [loops_again turn_calls] in *.
    destruct (Z.land revents POLLIN =? 0).
    + rewrite (IH _ _ _ _ _ F), <- app_assoc. reflexivity.
    + destruct r as [errno|]; [|discriminate].
      rewrite Lt, (IH _ _ _ _ _ F), <- !app_assoc. reflexivity.
Qed.

(** A call that returns went round on every turn but its last. *)
Lemma poll_loop_split (answers : list turn) : forall q d s tr c,
  poll_loop answers q d s tr = Some c ->
  exists pre t post,
    answers = pre ++ t :: post /\
    forallb loops_again pre = true /\
    loops_again t = false /\
    poll_loop (t :: post) q d s (tr ++ concat (map turn_calls pre)) = Some c.
Proof.
  induction answers as [|t answers IH]; intros q d s tr c H; [discriminate|].
  destruct (loops_again t) eqn:Lt.
  - change (t :: answers) with ([t] ++ answers) in H.
    rewrite (poll_loop_skip [t]) in H by (cbn; rewrite Lt; reflexivity).
    destruct (IH _ _ _ _ _ H) as (pre & t' & post & E & F & Lt' & P).
    exists (t :: pre), t', post. subst answers. repeat split.
    + cbn. rewrite Lt. exact F.
    + exact Lt'.
    + cbn [map concat] in *. rewrite app_nil_r, <- app_assoc in P. exact P.
  - exists [], t, answers. repeat split; [exact Lt|].
    cbn. rewrite app_nil_r. exact H.
Qed.

(** The last turn of a call: one wait, at most one read, and either the
    queue is untouched or its first bytes, up to [sizeof(buf) - 1] of
    them, were parsed. *)
Lemma poll_loop_last (t : turn) (post : list turn) q d s tr c :
  loops_again t = false ->
  poll_loop (t :: post) q d s tr = Some c ->
  trace c = tr ++ turn_calls t /\
  script (after c) = post /\
  ((rx (after c) = q /\ (ret c = s \/ ret c = d)) \/
   (fst (recv (sizeof_buf - 1) q) <> [] /\
    rx (after c) = snd (recv (sizeof_buf - 1) q) /\
    ret c = parse_into s (fst (recv (sizeof_buf - 1) q)))).
Proof.
  intros Lt H. cbn [poll_loop] in H.
  destruct t as [e| |revents r]; cbn [loops_again turn_calls] in *.
  - inversion H; subst; cbn. auto 8.
  - inversion H; subst; cbn. auto 8.
  - destruct (Z.land revents POLLIN =? 0); [discriminate|].
    destruct r as [errno|].
    + rewrite Lt in H. inversion H; subst; cbn.
      rewrite <- app_assoc. auto 8.
    + cbn [recv fst snd] in *.
      destruct (firstn (Z.to_nat (sizeof_buf - 1)) q) as [|b bs] eqn:R;
        inversion H; subst; cbn [trace after ret script rx];
        rewrite <- app_assoc.
      * auto 8.
      * repeat split; try reflexivity. right. repeat split. discriminate.
Qed.

(** The loop ends on the first turn that does not go round again: a
    call returns as soon as the kernel gives one such answer. *)
Lemma poll_loop_returns (answers : list turn) : forall q d s tr,
  existsb (fun t => negb (loops_again t)) answers = true ->
  exists c, poll_loop answers q d s tr = Some c.
Proof.
  induction answers as [|t answers IH]; intros q d s tr E; [discriminate|].
  cbn [existsb] in E. destruct (loops_again t) eqn:Lt.
  - change (t :: answers) with ([t] ++ answers).
    rewrite (poll_loop_skip [t]) by (cbn; rewrite Lt; reflexivity).
    apply IH. exact E.
  - clear E IH. cbn [poll_loop].
    destruct t as [e| |revents r]; cbn [loops_again] in Lt; eauto.
    destruct (Z.land revents POLLIN =? 0); [discriminate|].
    destruct r as [errno|]; [rewrite Lt; eauto|].
    destruct (recv (sizeof_buf - 1) q) as [[|b bs] q']; eauto.
Qed.

Lemma getSatelliteData_returns (w : world) (previous : list Z) :
  existsb (fun t => negb (loops_again t)) (script w) = true ->
  exists c, getSatelliteData w previous = Some c.
Proof. apply poll_loop_returns. Qed.

End Loop.

(** ** One call of getSatelliteData (claims C8, C4, C1, C10, C5, C3) *)

(** C8. Whenever the readiness wait times out, on the first turn of the
    loop or after turns that went round again, getSatelliteData returns
    the state its caller passed, unchanged, and leaves the queue of the
    socket as it was. *)
Theorem timeout_keeps_previous (pre post : list turn) (queue : list ascii)
    (previous : list Z) :
  forallb loops_again pre = true ->
  getSatelliteData (mkWorld queue (pre ++ poll_times_out :: post)) previous =
    Some (mkCall previous (mkWorld queue post)
            (concat (map turn_calls pre) ++ [sys_poll 10])).
Proof.
  intros F. unfold getSatelliteData. cbn [script rx].
  rewrite (poll_loop_skip pre _ _ _ _ _ F). reflexivity.
Qed.

Lemma timeout_keeps_previous_witness :
  forallb loops_again [poll_reports 4 recv_delivers] = true /\
  getSatelliteData
    (mkWorld (bytes "7,70") [poll_reports 4 recv_delivers; poll_times_out])
    [5; 200] =
  Some (mkCall [5; 200] (mkWorld (bytes "7,70") [])
          [sys_poll 10; sys_poll 10]).
Proof.
  split; [reflexivity|].
  exact (timeout_keeps_previous [poll_reports 4 recv_delivers] []
           (bytes "7,70") [5; 200] eq_refl).
Defined.

(** C4, at the failing inputs. With the previous state [5, 200], a
    failed wait (errno 4, EINTR) and a failed read (errno 104,
    ECONNRESET) both make getSatelliteData return the empty vector, not
    the previous state; main then reads [sat_params[1]] past its end. *)
Theorem error_paths_return_empty :
  getSatelliteData (mkWorld [] [poll_fails 4]) [5; 200] =
    Some (mkCall [] (mkWorld [] []) [sys_poll 10]) /\
  getSatelliteData (mkWorld [] [poll_reports POLLIN (recv_fails 104)]) [5; 200] =
    Some (mkCall [] (mkWorld [] []) [sys_poll 10; sys_recv 7]) /\
  main_tick (mkSim 0 [5; 200]) (mkWorld [] [poll_fails 4]) =
    tick_out_of_bounds 1 [].
Proof. repeat split. Qed.

(** C1, at the failing input. From the valid state [2, 10], the frame
    "5" parses to the single integer 5; getSatelliteData returns [5],
    main stores it and reads [sat_params[1]] past its end. *)
Theorem short_frame_read_out_of_bounds :
  getSatelliteData (mkWorld (bytes "5") [poll_reports POLLIN recv_delivers])
    [2; 10] =
    Some (mkCall [5] (mkWorld [] []) [sys_poll 10; sys_recv 7]) /\
  main_tick (mkSim 0 [2; 10])
    (mkWorld (bytes "5") [poll_reports POLLIN recv_delivers]) =
    tick_out_of_bounds 1 [5].
Proof. split; reflexivity. Qed.

Section Counting.

Lemma count_polls_app (a b : list syscall) :
  count_polls (a ++ b) = (count_polls a + count_polls b)%nat.
Proof. unfold count_polls. rewrite filter_app, length_app. reflexivity. Qed.

Lemma count_recvs_app (a b : list syscall) :
  count_recvs (a ++ b) = (count_recvs a + count_recvs b)%nat.
Proof. unfold count_recvs. rewrite filter_app, length_app. reflexivity. Qed.

(** Each turn of the loop makes exactly one wait, of 10 ms, and at most
    one read, of [sizeof(buf) - 1] bytes. *)
Lemma turn_calls_shape (t : turn) :
  count_polls (turn_calls t) = 1%nat /\
  (count_recvs (turn_calls t) <= 1)%nat /\
  Forall (eq 10) (poll_timeouts (turn_calls t)) /\
  Forall (eq (sizeof_buf - 1)) (recv_lens (turn_calls t)).
Proof.
  destruct t as [e| |revents r]; cbn [turn_calls];
    try destruct (Z.land revents POLLIN =? 0);
    cbn; repeat split; try lia; repeat constructor.
Qed.

Lemma turns_calls_shape (pre : list turn) :
  count_polls (concat (map turn_calls pre)) = List.length pre /\
  (count_recvs (concat (map turn_calls pre)) <= List.length pre)%nat /\
  Forall (eq 10) (poll_timeouts (concat (map turn_calls pre))) /\
  Forall (eq (sizeof_buf - 1)) (recv_lens (concat (map turn_calls pre))).
Proof.
  induction pre as [|t pre (P & R & T & L)]; cbn [map concat List.length].
  - cbn. repeat split; try lia; constructor.
  - destruct (turn_calls_shape t) as (P1 & R1 & T1 & L1).
    rewrite count_polls_app, count_recvs_app.
    unfold poll_timeouts, recv_lens in *. rewrite !flat_map_app.
    repeat split; try lia; apply Forall_app; split; assumption.
Qed.

(** The anatomy of a call that returns: turns that go round again, then
    one last turn. *)
Lemma call_anatomy (w : world) (previous : list Z) (c : call) :
  getSatelliteData w previous = Some c ->
  exists pre t post,
    script w = pre ++ t :: post /\
    forallb loops_again pre = true /\
    loops_again t = false /\
    script (after c) = post /\
    trace c = concat (map turn_calls pre) ++ turn_calls t /\
    ((rx (after c) = rx w /\ (ret c = [] \/ ret c = previous)) \/
     (fst (recv (sizeof_buf - 1) (rx w)) <> [] /\
      rx (after c) = snd (recv (sizeof_buf - 1) (rx w)) /\
      ret c = parse_params (fst (recv (sizeof_buf - 1) (rx w))))).
Proof.
  unfold getSatelliteData. intros H.
  destruct (poll_loop_split _ _ _ _ _ _ H) as (pre & t & post & E & F & Lt & P).
  destruct (poll_loop_last _ _ _ _ _ _ _ Lt P) as (Tr & Sc & Q).
  exists pre, t, post. repeat split; try assumption.
Qed.

Lemma pollin_turn_reads (revents : Z) (r : recv_answer) (rest : list turn)
    (queue : list ascii) (previous : list Z) (c : call) :
  Z.land revents POLLIN <> 0 ->
  getSatelliteData (mkWorld queue (poll_reports revents r :: rest)) previous
    = Some c ->
  exists tr, trace c = sys_poll 10 :: sys_recv (sizeof_buf - 1) :: tr.
Proof.
  intros P H. apply call_anatomy in H.
  destruct H as (pre & t & post & E & F & Lt & _ & Tr & _).
  cbn [script] in E. rewrite Tr.
  assert (C : turn_calls (poll_reports revents r)
              = [sys_poll 10; sys_recv (sizeof_buf - 1)]).
  { cbn [turn_calls]. apply Z.eqb_neq in P. rewrite P. reflexivity. }
  destruct pre as [|t0 pre]; cbn [app] in E; inversion E; subst.
  - rewrite C. cbn. eauto.
  - cbn [map concat]. rewrite C. cbn. eauto.
Qed.

End Counting.

(** C10. In every call of getSatelliteData each read asks for
    [sizeof(buf) - 1] bytes, which is 7, the size of the pointer
    parameter less one, not the 1024 bytes of the caller's array. A call
    takes at most 7 bytes off the queue of the socket; when it reads a
    message longer than that, it parses the first 7 bytes only and the
    rest stays queued for later calls. *)
Theorem read_requests_seven_bytes (w : world) (previous : list Z) (c : call) :
  getSatelliteData w previous = Some c ->
  Forall (eq (sizeof_buf - 1)) (recv_lens (trace c)) /\
  sizeof_buf - 1 = 7 /\ 7 < sizeof_buffer /\
  exists consumed,
    rx w = consumed ++ rx (after c) /\
    (List.length consumed <= 7)%nat /\
    (consumed = [] \/
     (consumed = firstn 7 (rx w) /\ ret c = parse_params consumed /\
      rx (after c) = skipn 7 (rx w) /\
      ((7 < List.length (rx w))%nat -> rx (after c) <> []))).
Proof.
  intros H. apply call_anatomy in H.
  destruct H as (pre & t & post & E & F & Lt & Sc & Tr & Q).
  split; [|split; [reflexivity|split; [reflexivity|]]].
  - rewrite Tr. unfold recv_lens. rewrite flat_map_app. apply Forall_app.
    split; [apply turns_calls_shape|apply turn_calls_shape].
  - destruct Q as [[Q _]|(NE & Q & R)].
    + exists []. rewrite Q. repeat split; [cbn; lia|left; reflexivity].
    + cbn [recv fst snd] in *.
      change (Z.to_nat (sizeof_buf - 1)) with 7%nat in *.
      exists (firstn 7 (rx w)). rewrite Q, firstn_skipn.
      repeat split; [rewrite length_firstn; lia|right].
      repeat split; try assumption.
      intros L Hs. apply (f_equal (@List.length ascii)) in Hs.
      rewrite length_skipn in Hs. cbn in Hs. lia.
Qed.

Lemma read_requests_seven_bytes_witness :
  getSatelliteData
    (mkWorld (bytes "100,20000") [poll_reports POLLIN recv_delivers]) [2; 10] =
    Some (mkCall [100; 200] (mkWorld (bytes "00") [])
            [sys_poll 10; sys_recv 7]) /\
  exists consumed,
    bytes "100,20000" = consumed ++ bytes "00" /\
    (List.length consumed <= 7)%nat /\
    (consumed = [] \/
     (consumed = firstn 7 (bytes "100,20000") /\
      [100; 200] = parse_params consumed /\
      bytes "00" = skipn 7 (bytes "100,20000") /\
      ((7 < List.length (bytes "100,20000"))%nat -> bytes "00" <> []))).
Proof.
  split; [reflexivity|].
  exact (proj2 (proj2 (proj2
    (read_requests_seven_bytes
       (mkWorld (bytes "100,20000") [poll_reports POLLIN recv_delivers])
       [2; 10]
       (mkCall [100; 200] (mkWorld (bytes "00") []) [sys_poll 10; sys_recv 7])
       eq_refl)))).
Defined.

(** C5, as the spec states it, fails. A read that would block does not
    end the call: the loop waits and reads a second time, and the call
    returns the frame read then, not the previous state. *)
Lemma would_block_iterates_again :
  getSatelliteData
    (mkWorld (bytes "5,200")
       [poll_reports POLLIN (recv_fails EWOULDBLOCK);
        poll_reports POLLIN recv_delivers])
    [2; 10] =
    Some (mkCall [5; 200] (mkWorld [] [])
            [sys_poll 10; sys_recv 7; sys_poll 10; sys_recv 7]) /\
  count_polls [sys_poll 10; sys_recv 7; sys_poll 10; sys_recv 7] = 2%nat /\
  count_recvs [sys_poll 10; sys_recv 7; sys_poll 10; sys_recv 7] = 2%nat.
Proof. repeat split. Qed.

(** C3, as the spec states it, fails. After a call whose read returned
    zero bytes, the next call on the same socket waits and reads
    again. *)
Lemma read_after_peer_closed :
  getSatelliteData
    (mkWorld [] [poll_reports POLLIN recv_delivers;
                 poll_reports POLLIN recv_delivers])
    [5; 200] =
    Some (mkCall [] (mkWorld [] [poll_reports POLLIN recv_delivers])
            [sys_poll 10; sys_recv 7]) /\
  getSatelliteData (mkWorld [] [poll_reports POLLIN recv_delivers])
    (refill []) =
    Some (mkCall [] (mkWorld [] []) [sys_poll 10; sys_recv 7]) /\
  In (sys_recv 7) [sys_poll 10; sys_recv 7].
Proof. repeat split. right; left; reflexivity. Qed.

(** C3, amended. When a read returns zero bytes, getSatelliteData
    leaves its loop without parsing, by the same exit and with the same
    result as after a read error other than would-block: there is no
    separate sign that the peer has closed, and nothing about the
    connection is recorded. Every later call on that socket makes the
    readiness wait again and, when the wait reports POLLIN, another
    read. *)
Theorem zero_byte_read_is_not_remembered (revents : Z) (rest : list turn)
    (previous : list Z) :
  Z.land revents POLLIN <> 0 ->
  exists c,
    getSatelliteData (mkWorld [] (poll_reports revents recv_delivers :: rest))
      previous = Some c /\
    after c = mkWorld [] rest /\
    trace c = [sys_poll 10; sys_recv (sizeof_buf - 1)] /\
    (forall errno, errno <> EWOULDBLOCK ->
       getSatelliteData
         (mkWorld [] (poll_reports revents (recv_fails errno) :: rest))
         previous = Some c) /\
    (forall revents' r rest' previous' c',
       rest = poll_reports revents' r :: rest' ->
       Z.land revents' POLLIN <> 0 ->
       getSatelliteData (after c) previous' = Some c' ->
       exists tr, trace c' = sys_poll 10 :: sys_recv (sizeof_buf - 1) :: tr).
Proof.
  intros P. pose proof P as P'. apply Z.eqb_neq in P'.
  exists (mkCall [] (mkWorld [] rest) [sys_poll 10; sys_recv (sizeof_buf - 1)]).
  unfold getSatelliteData at 1. cbn [script rx poll_loop recv firstn].
  rewrite P'. cbn [app after trace].
  split; [reflexivity|]. split; [reflexivity|]. split; [reflexivity|]. split.
  - intros errno NE. unfold getSatelliteData. cbn [script rx poll_loop].
    apply Z.eqb_neq in NE. rewrite P', NE. reflexivity.
  - intros revents' r rest' previous' c' E Q H. subst rest.
    exact (pollin_turn_reads _ _ _ _ _ _ Q H).
Qed.

Lemma zero_byte_read_is_not_remembered_witness :
  Z.land POLLIN POLLIN <> 0 /\
  exists c,
    getSatelliteData
      (mkWorld [] (poll_reports POLLIN recv_delivers ::
                   [poll_reports POLLIN recv_delivers]))
      [5; 200] = Some c /\
    after c = mkWorld [] [poll_reports POLLIN recv_delivers] /\
    trace c = [sys_poll 10; sys_recv (sizeof_buf - 1)] /\
    (forall errno, errno <> EWOULDBLOCK ->
       getSatelliteData
         (mkWorld [] (poll_reports POLLIN (recv_fails errno) ::
                      [poll_reports POLLIN recv_delivers]))
         [5; 200] = Some c) /\
    (forall revents' r rest' previous' c',
       [poll_reports POLLIN recv_delivers] = poll_reports revents' r :: rest' ->
       Z.land revents' POLLIN <> 0 ->
       getSatelliteData (after c) previous' = Some c' ->
       exists tr, trace c' = sys_poll 10 :: sys_recv (sizeof_buf - 1) :: tr).
Proof.
  assert (P : Z.land POLLIN POLLIN <> 0) by (vm_compute; discriminate).
  split; [exact P|].
  exact (zero_byte_read_is_not_remembered POLLIN
           [poll_reports POLLIN recv_delivers] [5; 200] P).
Defined.

(** ** createSocket (claim C6) *)

Section Connect.

(** Four transient failures in a row, from a fresh patience counter:
    three retries, then the fourth failure ends the loop with 0. *)
Lemma connect_loop_exhausts (a1 a2 a3 a4 : connect_answer)
    (rest : list connect_answer) (fd : Z) (tr : list conn_call) :
  transient a1 -> transient a2 -> transient a3 -> transient a4 ->
  connect_loop (a1 :: a2 :: a3 :: a4 :: rest) fd 0 tr =
    Some (0, tr ++ [c_connect; c_delay 1000; c_connect; c_delay 1000;
                    c_connect; c_delay 1000; c_connect]).
Proof.
  intros [-> | ->] [-> | ->] [-> | ->] [-> | ->]; cbn;
    rewrite <- !app_assoc; reflexivity.
Qed.

(** The loop of createSocket ends within four attempts. *)
Lemma connect_loop_returns (answers : list connect_answer) :
  forall fd fallback tr,
  0 <= fallback ->
  1 <= Z.of_nat (List.length answers) ->
  4 - fallback <= Z.of_nat (List.length answers) ->
  exists r, connect_loop answers fd fallback tr = Some r.
Proof.
  induction answers as [|a answers IH]; intros fd fallback tr F L1 L4;
    [cbn in L1; lia|].
  cbn [connect_loop]. destruct a as [|errno]; [eauto|].
  destruct ((errno =? ENOENT) || (errno =? ECONNREFUSED)); [|eauto].
  destruct (fallback >? 2) eqn:G; [eauto|].
  assert (fallback <= 2) by (rewrite Z.gtb_ltb in G; apply Z.ltb_ge in G; lia).
  cbn [List.length] in L4. rewrite Nat2Z.inj_succ in L4.
  apply IH; lia.
Qed.

Lemma createSocket_returns (env : conn_env) :
  (4 <= List.length (connects env))%nat ->
  exists r, createSocket env = Some r.
Proof.
  intros L. unfold createSocket.
  destruct (socket_ret env =? -1); [eauto|].
  destruct (setfl_ret env =? -1); [eauto|].
  apply connect_loop_returns; lia.
Qed.

End Connect.

(** C6. If the first four connection attempts all fail with a
    transient error (the endpoint does not exist, or the connection is
    refused), createSocket gives up: it returns 0, the value of
    exhausted patience and not the value 1 of the fatal paths, after
    exactly 3 retries (4 attempts in all), without closing the
    descriptor. *)
Theorem connect_exhausted_after_three_retries (env : conn_env) :
  socket_ret env <> -1 ->
  setfl_ret env <> -1 ->
  (4 <= List.length (connects env))%nat ->
  Forall transient (firstn 4 (connects env)) ->
  exists tr,
    createSocket env = Some (RET_EXHAUSTED, tr) /\
    count_retries tr = 3%nat /\
    count_connects tr = 4%nat /\
    count_closes tr = 0%nat /\
    RET_EXHAUSTED <> RET_FATAL.
Proof.
  intros S F L T. unfold createSocket.
  apply Z.eqb_neq in S. apply Z.eqb_neq in F. rewrite S, F.
  destruct (connects env) as [|a1 [|a2 [|a3 [|a4 rest]]]];
    cbn [List.length] in L; try lia.
  cbn [firstn] in T.
  inversion T as [|? ? T1 T']; subst. inversion T' as [|? ? T2 T'']; subst.
  inversion T'' as [|? ? T3 T''']; subst. inversion T''' as [|? ? T4 _]; subst.
  rewrite (connect_loop_exhausts a1 a2 a3 a4 rest _ _ T1 T2 T3 T4).
  eexists. split; [reflexivity|]. cbn. repeat split. discriminate.
Qed.

Lemma connect_exhausted_after_three_retries_witness :
  3 <> -1 /\ 0 <> -1 /\
  (4 <= List.length [connect_fails ENOENT; connect_fails ENOENT;
                     connect_fails ECONNREFUSED; connect_fails ECONNREFUSED])%nat /\
  Forall transient
    (firstn 4 [connect_fails ENOENT; connect_fails ENOENT;
               connect_fails ECONNREFUSED; connect_fails ECONNREFUSED]) /\
  exists tr,
    createSocket
      (mkConnEnv 3 2 0
         [connect_fails ENOENT; connect_fails ENOENT;
          connect_fails ECONNREFUSED; connect_fails ECONNREFUSED])
      = Some (RET_EXHAUSTED, tr) /\
    count_retries tr = 3%nat /\
    count_connects tr = 4%nat /\
    count_closes tr = 0%nat /\
    RET_EXHAUSTED <> RET_FATAL.
Proof.
  assert (S : 3 <> -1) by lia.
  assert (F : 0 <> -1) by lia.
  assert (L : (4 <= List.length [connect_fails ENOENT; connect_fails ENOENT;
             connect_fails ECONNREFUSED; connect_fails ECONNREFUSED])%nat)
    by (cbn; lia).
  assert (T : Forall transient
    (firstn 4 [connect_fails ENOENT; connect_fails ENOENT;
               connect_fails ECONNREFUSED; connect_fails ECONNREFUSED])).
  { cbn [firstn]. repeat apply Forall_cons; try apply Forall_nil;
      unfold transient; auto. }
  split; [exact S|]. split; [exact F|]. split; [exact L|]. split; [exact T|].
  exact (connect_exhausted_after_three_retries
    (mkConnEnv 3 2 0
       [connect_fails ENOENT; connect_fails ENOENT;
        connect_fails ECONNREFUSED; connect_fails ECONNREFUSED])
    S F L T).
Defined.

(** * Further properties of the code *)

(** ** More on the parsing loop and atoi *)

Section ParsingMore.

Lemma tokens_from_comma (a : list ascii) : forall cur b,
  tokens_from cur (a ++ ","%char :: b) = tokens_from cur a ++ tokens b.
Proof.
  induction a as [|c a IH]; intros cur b.
  - cbn [app tokens_from]. replace (is_delim ","%char) with true by reflexivity.
    destruct cur; reflexivity.
  - cbn [app tokens_from]. destruct (is_delim c).
    + destruct cur; rewrite IH; reflexivity.
    + apply IH.
Qed.

Lemma c_str_nul_free (a : list ascii) :
  Forall (fun c => is_nul c = false) a -> c_str a = a.
Proof.
  intros F. rewrite <- (app_nil_r a) at 1. rewrite (c_str_app a [] F).
  apply app_nil_r.
Qed.

Lemma tokens_from_trailing (s : list ascii) : forall cur,
  tokens_from cur (c_str (s ++ [","%char])) = tokens_from cur (c_str s).
Proof.
  induction s as [|c s IH]; intros cur.
  - destruct cur; reflexivity.
  - cbn [app c_str]. destruct (is_nul c); [reflexivity|].
    cbn [tokens_from]. destruct (is_delim c).
    + destruct cur; rewrite IH; reflexivity.
    + apply IH.
Qed.

Lemma c_str_cut (a b : list ascii) : c_str (a ++ Ascii.zero :: b) = c_str a.
Proof.
  induction a as [|c a IH]; [reflexivity|].
  cbn [app c_str]. destruct (is_nul c); [reflexivity|]. rewrite IH. reflexivity.
Qed.

Lemma tokens_from_count (s : list ascii) : forall cur,
  (2 * List.length (tokens_from cur s) <=
   List.length s + match cur with [] => 1 | _ => 2 end)%nat.
Proof.
  induction s as [|c s IH]; intros cur; cbn [tokens_from List.length].
  - destruct cur; cbn [List.length]; lia.
  - destruct (is_delim c).
    + specialize (IH []). cbn beta iota in IH.
      destruct cur; cbn [List.length]; lia.
    + specialize (IH (c :: cur)). cbn beta iota in IH. destruct cur; lia.
Qed.

Lemma atoi_seven_bytes (tok : list ascii) :
  (List.length tok <= 7)%nat -> -999999 <= atoi tok <= 9999999.
Proof.
  intros L. unfold atoi. pose proof (skip_spaces_length tok) as K.
  assert (B : forall (s : list ascii) (n : nat), (List.length s <= n)%nat ->
            0 <= digits_value 0 s < 10 ^ Z.of_nat n).
  { intros s n Ls. pose proof (digits_value_bound s 0 ltac:(lia)) as H.
    assert (10 ^ Z.of_nat (List.length s) <= 10 ^ Z.of_nat n)
      by (apply Z.pow_le_mono_r; lia). lia. }
  destruct (skip_spaces tok) as [|c rest] eqn:E; [lia|].
  cbn [List.length] in K.
  pose proof (B rest 6%nat ltac:(lia)) as B6.
  pose proof (B (c :: rest) 7%nat ltac:(cbn [List.length]; lia)) as B7.
  change (10 ^ Z.of_nat 6) with 1000000 in B6.
  change (10 ^ Z.of_nat 7) with 10000000 in B7.
  destruct (code c =? 45); [lia|]. destruct (code c =? 43); lia.
Qed.

Lemma skip_spaces_blanks (ws s : list ascii) :
  Forall (fun c => isspace c = true) ws ->
  skip_spaces (ws ++ s) = skip_spaces s.
Proof.
  induction ws as [|c ws IH]; intros F; [reflexivity|].
  inversion F as [|? ? Hc F']; subst. cbn [app skip_spaces]. rewrite Hc.
  exact (IH F').
Qed.

Lemma digits_value_stop (acc : Z) (tail : list ascii) :
  starts_with_digit tail = false -> digits_value acc tail = acc.
Proof.
  destruct tail as [|c tail]; [reflexivity|].
  cbn [starts_with_digit digits_value]. intros ->. reflexivity.
Qed.

Lemma digits_value_app (ds : list nat) : forall acc tail,
  Forall (fun d => (d < 10)%nat) ds ->
  digits_value acc (map digit_char ds ++ tail) =
  digits_value (acc * 10 ^ Z.of_nat (List.length ds) + decimal ds) tail.
Proof.
  induction ds as [|d ds IH]; intros acc tail F.
  - cbn [map app decimal List.length]. change (Z.of_nat 0) with 0.
    f_equal. lia.
  - inversion F as [|? ? Hd F']; subst.
    cbn [map app digits_value].
    rewrite (digit_char_isdigit d Hd), (digit_char_code d Hd), (IH _ _ F').
    f_equal. cbn [decimal List.length].
    rewrite Nat2Z.inj_succ, Z.pow_succ_r by lia. ring.
Qed.

End ParsingMore.

(** X1. A comma between two pieces of a message, the first without NUL
    byte, splits the parse: the integers of the first piece followed by
    those of the second. *)
Theorem parse_params_comma (a b : list ascii) :
  Forall (fun c => is_nul c = false) a ->
  parse_params (a ++ ","%char :: b) = parse_params a ++ parse_params b.
Proof.
  intros F. rewrite !parse_params_tokens.
  rewrite (c_str_app a _ F). cbn [c_str].
  replace (is_nul ","%char) with false by reflexivity.
  unfold tokens at 1. rewrite tokens_from_comma, map_app.
  rewrite (c_str_nul_free a F). reflexivity.
Qed.

Lemma parse_params_comma_witness :
  Forall (fun c => is_nul c = false) (bytes "5,7") /\
  parse_params (bytes "5,7" ++ ","%char :: bytes "200")
    = parse_params (bytes "5,7") ++ parse_params (bytes "200").
Proof.
  assert (F : Forall (fun c => is_nul c = false) (bytes "5,7"))
    by (repeat constructor).
  split; [exact F|].
  exact (parse_params_comma (bytes "5,7") (bytes "200") F).
Defined.

(** X2. A comma at the start or at the end of the received bytes adds
    no integer: strtok hands out no empty token. *)
Theorem parse_params_stray_commas (s : list ascii) :
  parse_params (","%char :: s) = parse_params s /\
  parse_params (s ++ [","%char]) = parse_params s.
Proof.
  rewrite !parse_params_tokens. split.
  - reflexivity.
  - unfold tokens. rewrite tokens_from_trailing. reflexivity.
Qed.

(** X3. The bytes after a NUL byte in the received data are not parsed:
    strtok reads the buffer as a C string. *)
Theorem parse_params_stops_at_nul (a b : list ascii) :
  parse_params (a ++ Ascii.zero :: b) = parse_params a.
Proof.
  rewrite !parse_params_tokens, c_str_cut. reflexivity.
Qed.

(** X4. Whatever is queued on the socket, the frame one read yields
    holds at most 4 integers, each between -999999 and 9999999: atoi is
    never given a number that overflows an int. *)
Theorem frame_shape (queue : list ascii) :
  (List.length (parse_params (fst (recv (sizeof_buf - 1) queue))) <= 4)%nat /\
  Forall (fun v => -999999 <= v <= 9999999)
    (parse_params (fst (recv (sizeof_buf - 1) queue))).
Proof.
  rewrite parse_params_tokens. cbn [recv fst].
  set (received := firstn _ queue).
  assert (L : (List.length received <= 7)%nat).
  { unfold received. rewrite length_firstn.
    change (Z.to_nat (sizeof_buf - 1)) with 7%nat. lia. }
  pose proof (c_str_length received) as C. split.
  - rewrite length_map. pose proof (tokens_from_count (c_str received) []) as T.
    cbn beta iota in T. unfold tokens. lia.
  - apply Forall_map.
    eapply Forall_impl; [|exact (tokens_from_length (c_str received) [])].
    intros t Ht. apply atoi_seven_bytes. cbn [List.length] in Ht. lia.
Qed.

(** X5. atoi is lenient: white space before a decimal integer that
    fits an int and any bytes after it that do not start with a digit
    leave the value of the integer unchanged. *)
Theorem atoi_lenient (ws : list ascii) (l : literal) (tail : list ascii) :
  Forall (fun c => isspace c = true) ws ->
  valid_literal l ->
  fits_int (literal_value l) ->
  starts_with_digit tail = false ->
  atoi (ws ++ render l ++ tail) = literal_value l.
Proof.
  intros W V _ T. unfold atoi. rewrite (skip_spaces_blanks ws _ W).
  destruct l as [neg ds]. unfold valid_literal, render, literal_value in *.
  cbn [negative digits] in *. destruct V as [NE F]. destruct neg; cbn [app].
  - destruct minus_char_kind as [Sp M]. cbn [skip_spaces]. rewrite Sp, M.
    rewrite (digits_value_app ds 0 tail F), (digits_value_stop _ _ T). lia.
  - destruct ds as [|d ds]; [congruence|].
    inversion F as [|? ? Hd F']; subst.
    destruct (digit_char_kind d Hd) as (Sp & _ & _ & M & P).
    cbn [map app skip_spaces]. rewrite Sp, M, P.
    change (digit_char d :: map digit_char ds ++ tail)
      with (map digit_char (d :: ds) ++ tail).
    rewrite (digits_value_app (d :: ds) 0 tail F), (digits_value_stop _ _ T).
    lia.
Qed.

Lemma atoi_lenient_witness :
  Forall (fun c => isspace c = true) (bytes "  ") /\
  valid_literal (mkLiteral true [4%nat; 2%nat]) /\
  fits_int (literal_value (mkLiteral true [4%nat; 2%nat])) /\
  starts_with_digit (bytes "km") = false /\
  atoi (bytes "  -42km") = -42.
Proof.
  assert (W : Forall (fun c => isspace c = true) (bytes "  "))
    by (repeat constructor).
  assert (V : valid_literal (mkLiteral true [4%nat; 2%nat])).
  { split; [discriminate|]. repeat constructor. }
  assert (R : fits_int (literal_value (mkLiteral true [4%nat; 2%nat])))
    by (vm_compute; split; discriminate).
  split; [exact W|]. split; [exact V|]. split; [exact R|].
  split; [reflexivity|].
  exact (atoi_lenient (bytes "  ") (mkLiteral true [4%nat; 2%nat]) (bytes "km")
           W V R eq_refl).
Defined.

(** ** More on getSatelliteData *)

Section PollerMore.

Lemma poll_loop_spins (answers : list turn) q d s tr :
  forallb loops_again answers = true -> poll_loop answers q d s tr = None.
Proof.
  intros F. rewrite <- (app_nil_r answers).
  rewrite (poll_loop_skip answers [] _ _ _ _ F). reflexivity.
Qed.

Lemma not_all_loop (answers : list turn) :
  forallb loops_again answers = false ->
  existsb (fun t => negb (loops_again t)) answers = true.
Proof.
  induction answers as [|t answers IH]; [discriminate|].
  cbn [forallb existsb]. destruct (loops_again t); cbn; auto.
Qed.

Lemma leaves_empty_last (t : turn) (queue : list ascii) :
  leaves_empty t queue = true -> loops_again t = false.
Proof.
  destruct t as [e| |revents r]; cbn [leaves_empty loops_again]; try easy.
  destruct (Z.land revents POLLIN =? 0); [discriminate|].
  destruct r as [errno|]; cbn; [|reflexivity].
  intros H. apply negb_true_iff in H. exact H.
Qed.

Lemma poll_loop_leaves_empty (t : turn) (post : list turn) q d tr :
  leaves_empty t q = true ->
  poll_loop (t :: post) q d [] tr =
    Some (mkCall [] (mkWorld q post) (tr ++ turn_calls t)).
Proof.
  destruct t as [e| |revents r]; cbn [leaves_empty poll_loop turn_calls];
    try easy.
  destruct (Z.land revents POLLIN =? 0); [discriminate|].
  rewrite <- app_assoc. cbn [app negb andb].
  destruct r as [errno|].
  - intros H. apply negb_true_iff in H. rewrite H. reflexivity.
  - destruct q; [reflexivity|discriminate].
Qed.

Lemma poll_loop_data (revents : Z) (post : list turn) q d tr :
  Z.land revents POLLIN <> 0 -> q <> [] ->
  poll_loop (poll_reports revents recv_delivers :: post) q d [] tr =
    Some (mkCall (parse_params (firstn 7 q)) (mkWorld (skipn 7 q) post)
            (tr ++ [sys_poll 10; sys_recv (sizeof_buf - 1)])).
Proof.
  intros P NE. cbn [poll_loop]. apply Z.eqb_neq in P. rewrite P.
  rewrite <- app_assoc. cbn [app recv].
  change (Z.to_nat (sizeof_buf - 1)) with 7%nat.
  destruct q as [|b q]; [congruence|]. reflexivity.
Qed.

Lemma call_on_error (pre : list turn) (t : turn) (post : list turn)
    (queue : list ascii) (previous : list Z) :
  forallb loops_again pre = true ->
  leaves_empty t queue = true ->
  getSatelliteData (mkWorld queue (pre ++ t :: post)) previous =
    Some (mkCall [] (mkWorld queue post)
            (concat (map turn_calls pre) ++ turn_calls t)).
Proof.
  intros F E. unfold getSatelliteData. cbn [script rx].
  rewrite (poll_loop_skip pre _ _ _ _ _ F).
  exact (poll_loop_leaves_empty t post queue previous _ E).
Qed.

Lemma call_on_data (pre : list turn) (revents : Z) (post : list turn)
    (queue : list ascii) (previous : list Z) :
  forallb loops_again pre = true ->
  Z.land revents POLLIN <> 0 ->
  queue <> [] ->
  getSatelliteData
    (mkWorld queue (pre ++ poll_reports revents recv_delivers :: post))
    previous =
    Some (mkCall (parse_params (firstn 7 queue)) (mkWorld (skipn 7 queue) post)
            (concat (map turn_calls pre) ++
             [sys_poll 10; sys_recv (sizeof_buf - 1)])).
Proof.
  intros F P NE. unfold getSatelliteData. cbn [script rx].
  rewrite (poll_loop_skip pre _ _ _ _ _ F).
  exact (poll_loop_data revents post queue previous _ P NE).
Qed.

Lemma call_on_timeout (pre post : list turn) (queue : list ascii)
    (previous : list Z) :
  forallb loops_again pre = true ->
  getSatelliteData (mkWorld queue (pre ++ poll_times_out :: post)) previous =
    Some (mkCall previous (mkWorld queue post)
            (concat (map turn_calls pre) ++ [sys_poll 10])).
Proof.
  intros F. unfold getSatelliteData. cbn [script rx].
  rewrite (poll_loop_skip pre _ _ _ _ _ F). reflexivity.
Qed.

End PollerMore.

(** ** Frames read by one call (claims C2, C9, C7, C5) *)

Section Frames.

Lemma short_queue (queue : list ascii) :
  (List.length queue <= 7)%nat -> firstn 7 queue = queue /\ skipn 7 queue = [].
Proof.
  intros L. split; [apply firstn_all2|apply skipn_all2]; exact L.
Qed.

(** A queue that fits one read is parsed whole. *)
Lemma call_on_short_queue (revents : Z) (post : list turn)
    (queue : list ascii) (previous : list Z) :
  Z.land revents POLLIN <> 0 ->
  queue <> [] ->
  (List.length queue <= 7)%nat ->
  getSatelliteData (mkWorld queue (poll_reports revents recv_delivers :: post))
    previous =
    Some (mkCall (parse_params queue) (mkWorld [] post)
            [sys_poll 10; sys_recv (sizeof_buf - 1)]).
Proof.
  intros P NE L. destruct (short_queue queue L) as [Fi Sk].
  pose proof (call_on_data [] revents post queue previous eq_refl P NE) as H.
  cbn [app map concat] in H. rewrite Fi, Sk in H. exact H.
Qed.

Lemma parse_literals (lits : list literal) :
  Forall valid_literal lits ->
  parse_params (join_commas (map render lits)) = map literal_value lits.
Proof.
  intros V.
  assert (P : Forall plain (map render lits)).
  { apply Forall_map. eapply Forall_impl; [|exact V].
    intros l; apply render_plain. }
  rewrite parse_params_tokens, (c_str_join _ P), (tokens_join _ P), map_map.
  apply map_ext_in. intros l Hl. apply atoi_render.
  rewrite Forall_forall in V. exact (V l Hl).
Qed.

(** A message of valid decimal integers that fits one read is returned
    as the values of its integers, in order. *)
Lemma short_valid_message (lits : list literal) (revents : Z)
    (post : list turn) (previous : list Z) :
  Forall valid_literal lits ->
  Z.land revents POLLIN <> 0 ->
  join_commas (map render lits) <> [] ->
  (List.length (join_commas (map render lits)) <= 7)%nat ->
  getSatelliteData
    (mkWorld (join_commas (map render lits))
       (poll_reports revents recv_delivers :: post)) previous =
    Some (mkCall (map literal_value lits) (mkWorld [] post)
            [sys_poll 10; sys_recv (sizeof_buf - 1)]).
Proof.
  intros V P NE L.
  rewrite (call_on_short_queue revents post _ previous P NE L).
  rewrite (parse_literals lits V). reflexivity.
Qed.

Lemma would_block_loops (pre : list turn) :
  forallb would_block pre = true ->
  forallb loops_again pre = true /\
  concat (map turn_calls pre) =
    concat (map (fun _ => [sys_poll 10; sys_recv (sizeof_buf - 1)]) pre).
Proof.
  induction pre as [|t pre IH]; intros W; [split; reflexivity|].
  cbn [forallb] in W. apply andb_prop in W. destruct W as [Wt W].
  destruct (IH W) as [L C]. cbn [forallb map concat]. rewrite L, C.
  destruct t as [e| |revents [errno|]]; cbn [would_block] in Wt;
    try discriminate.
  apply andb_prop in Wt. destruct Wt as [A B].
  apply negb_true_iff in A. cbn [loops_again turn_calls]. rewrite A, B.
  split; reflexivity.
Qed.

Lemma would_block_counts (pre : list turn) :
  count_polls
    (concat (map (fun _ : turn => [sys_poll 10; sys_recv (sizeof_buf - 1)]) pre))
    = List.length pre /\
  count_recvs
    (concat (map (fun _ : turn => [sys_poll 10; sys_recv (sizeof_buf - 1)]) pre))
    = List.length pre /\
  Forall (eq 10)
    (poll_timeouts
       (concat (map (fun _ : turn => [sys_poll 10; sys_recv (sizeof_buf - 1)]) pre))).
Proof.
  induction pre as [|t pre (P & R & T)]; [repeat split; constructor|].
  cbn [map concat List.length]. rewrite count_polls_app, count_recvs_app, P, R.
  unfold poll_timeouts in *. rewrite flat_map_app.
  repeat split. apply Forall_app. split; [repeat constructor|exact T].
Qed.

End Frames.




(** C9, at the failing input. The message "100,20000" is made of the
    valid decimal integers 100 and 20000, yet the call that receives it
    returns [100, 200]: the read takes 7 of its 9 bytes. The next call
    returns [0], parsed from the two bytes left. *)
Theorem long_valid_message_misparsed :
  Forall valid_literal
    [mkLiteral false [1; 0; 0]%nat; mkLiteral false [2; 0; 0; 0; 0]%nat] /\
  join_commas
    (map render
       [mkLiteral false [1; 0; 0]%nat; mkLiteral false [2; 0; 0; 0; 0]%nat])
    = bytes "100,20000" /\
  map literal_value
    [mkLiteral false [1; 0; 0]%nat; mkLiteral false [2; 0; 0; 0; 0]%nat]
    = [100; 20000] /\
  getSatelliteData
    (mkWorld (bytes "100,20000")
       [poll_reports POLLIN recv_delivers; poll_reports POLLIN recv_delivers])
    [2; 10] =
    Some (mkCall [100; 200]
            (mkWorld (bytes "00") [poll_reports POLLIN recv_delivers])
            [sys_poll 10; sys_recv 7]) /\
  getSatelliteData
    (mkWorld (bytes "00") [poll_reports POLLIN recv_delivers]) [100; 200] =
    Some (mkCall [0] (mkWorld [] []) [sys_poll 10; sys_recv 7]).
Proof.
  split; [|repeat split].
  repeat constructor; try discriminate; cbn; lia.
Qed.

(** C7, at the failing inputs. With the previous state [5, 200], the
    received message "," parses to nothing and getSatelliteData returns
    the empty vector, not the previous state; the message "abc", with
    no integer in it, makes it return [0]. In both cases main then
    reads [sat_params[1]] past the end of the vector. *)
Theorem empty_parse_returns_empty :
  parse_params (fst (recv (sizeof_buf - 1) (bytes ","))) = [] /\
  getSatelliteData (mkWorld (bytes ",") [poll_reports POLLIN recv_delivers])
    [5; 200] =
    Some (mkCall [] (mkWorld [] []) [sys_poll 10; sys_recv 7]) /\
  main_tick (mkSim 0 [5; 200])
    (mkWorld (bytes ",") [poll_reports POLLIN recv_delivers]) =
    tick_out_of_bounds 1 [] /\
  getSatelliteData (mkWorld (bytes "abc") [poll_reports POLLIN recv_delivers])
    [5; 200] =
    Some (mkCall [0] (mkWorld [] []) [sys_poll 10; sys_recv 7]) /\
  main_tick (mkSim 0 [5; 200])
    (mkWorld (bytes "abc") [poll_reports POLLIN recv_delivers]) =
    tick_out_of_bounds 1 [0].
Proof. repeat split. Qed.

(** C5, amended. Every turn of the loop of getSatelliteData makes one
    readiness wait of 10 ms and at most one read. A read that would
    block does not end the call: it is followed by another turn, with
    another wait and another read. A call that meets k such turns and
    then a wait error, a timeout, a read error of another kind, a read
    of zero bytes or a read of data returns on that turn, after k + 1
    waits and k or k + 1 reads, of which at most the last takes bytes
    off the socket (nothing is drained in a loop). *)
Theorem would_block_starts_another_turn (pre : list turn) (t : turn)
    (post : list turn) (queue : list ascii) (previous : list Z) :
  forallb would_block pre = true ->
  loops_again t = false ->
  exists c,
    getSatelliteData (mkWorld queue (pre ++ t :: post)) previous = Some c /\
    script (after c) = post /\
    trace c =
      concat (map (fun _ => [sys_poll 10; sys_recv (sizeof_buf - 1)]) pre)
      ++ turn_calls t /\
    count_polls (trace c) = S (List.length pre) /\
    (List.length pre <= count_recvs (trace c) <= S (List.length pre))%nat /\
    Forall (eq 10) (poll_timeouts (trace c)) /\
    (rx (after c) = queue \/
     (rx (after c) = skipn 7 queue /\ ret c = parse_params (firstn 7 queue))).
Proof.
  intros W Lt. destruct (would_block_loops pre W) as [F C].
  assert (R : exists c, poll_loop (t :: post) queue previous []
                ([] ++ concat (map turn_calls pre)) = Some c).
  { apply poll_loop_returns. cbn [existsb]. rewrite Lt. reflexivity. }
  destruct R as [c Hc]. exists c.
  destruct (poll_loop_last _ _ _ _ _ _ _ Lt Hc) as (Tr & Sc & Q).
  cbn [app] in Tr. rewrite C in Tr.
  destruct (would_block_counts pre) as (P1 & R1 & T1).
  destruct (turn_calls_shape t) as (P2 & R2 & T2 & _).
  split.
  { unfold getSatelliteData. cbn [script rx].
    rewrite (poll_loop_skip pre _ _ _ _ _ F). exact Hc. }
  split; [exact Sc|]. split; [exact Tr|].
  rewrite Tr, count_polls_app, count_recvs_app, P1, R1.
  unfold poll_timeouts in *. rewrite flat_map_app.
  repeat split; try lia.
  - apply Forall_app. split; assumption.
  - destruct Q as [[Q _]|(_ & Q & E)]; [left; exact Q|right].
    split; [exact Q|exact E].
Qed.

Lemma would_block_starts_another_turn_witness :
  forallb would_block
    [poll_reports POLLIN (recv_fails EWOULDBLOCK);
     poll_reports POLLIN (recv_fails EWOULDBLOCK)] = true /\
  loops_again (poll_reports POLLIN recv_delivers) = false /\
  getSatelliteData
    (mkWorld (bytes "5,200")
       ([poll_reports POLLIN (recv_fails EWOULDBLOCK);
         poll_reports POLLIN (recv_fails EWOULDBLOCK)]
        ++ poll_reports POLLIN recv_delivers :: [poll_times_out]))
    [2; 10] =
    Some (mkCall [5; 200] (mkWorld [] [poll_times_out])
            [sys_poll 10; sys_recv 7; sys_poll 10; sys_recv 7;
             sys_poll 10; sys_recv 7]) /\
  exists c,
    getSatelliteData
      (mkWorld (bytes "5,200")
         ([poll_reports POLLIN (recv_fails EWOULDBLOCK);
           poll_reports POLLIN (recv_fails EWOULDBLOCK)]
          ++ poll_reports POLLIN recv_delivers :: [poll_times_out]))
      [2; 10] = Some c /\
    script (after c) = [poll_times_out] /\
    trace c =
      concat (map (fun _ => [sys_poll 10; sys_recv (sizeof_buf - 1)])
                [poll_reports POLLIN (recv_fails EWOULDBLOCK);
                 poll_reports POLLIN (recv_fails EWOULDBLOCK)])
      ++ turn_calls (poll_reports POLLIN recv_delivers) /\
    count_polls (trace c) = 3%nat /\
    (2 <= count_recvs (trace c) <= 3)%nat /\
    Forall (eq 10) (poll_timeouts (trace c)) /\
    (rx (after c) = bytes "5,200" \/
     (rx (after c) = skipn 7 (bytes "5,200") /\
      ret c = parse_params (firstn 7 (bytes "5,200")))).
Proof.
  split; [reflexivity|]. split; [reflexivity|]. split; [reflexivity|].
  exact (would_block_starts_another_turn
    [poll_reports POLLIN (recv_fails EWOULDBLOCK);
     poll_reports POLLIN (recv_fails EWOULDBLOCK)]
    (poll_reports POLLIN recv_delivers) [poll_times_out] (bytes "5,200")
    [2; 10] eq_refl eq_refl).
Defined.

(** X6. A call of getSatelliteData stays in its loop exactly as long as
    every answer of the kernel is a readiness report without POLLIN or
    a read that would block: it has not returned at the end of a run of
    answers if and only if all of them are of these two kinds. *)
Theorem call_spins_iff (w : world) (previous : list Z) :
  getSatelliteData w previous = None <->
  forallb loops_again (script w) = true.
Proof.
  unfold getSatelliteData. split.
  - intros N. destruct (forallb loops_again (script w)) eqn:F; [reflexivity|].
    destruct (poll_loop_returns (script w) (rx w) previous [] []
                (not_all_loop _ F)) as [c H].
    congruence.
  - apply poll_loop_spins.
Qed.

(** X7. When the loop is left on a failed wait, on a failed read that
    is not a would-block, or on a read of zero bytes, getSatelliteData
    returns the empty vector, whatever state the caller passed, and
    takes nothing off the socket. *)
Theorem error_exits_return_empty (pre : list turn) (t : turn)
    (post : list turn) (queue : list ascii) (previous : list Z) :
  forallb loops_again pre = true ->
  leaves_empty t queue = true ->
  getSatelliteData (mkWorld queue (pre ++ t :: post)) previous =
    Some (mkCall [] (mkWorld queue post)
            (concat (map turn_calls pre) ++ turn_calls t)).
Proof. apply call_on_error. Qed.

Lemma error_exits_return_empty_witness :
  forallb loops_again [poll_reports POLLIN (recv_fails EWOULDBLOCK)] = true /\
  leaves_empty (poll_reports POLLIN recv_delivers) [] = true /\
  getSatelliteData
    (mkWorld [] ([poll_reports POLLIN (recv_fails EWOULDBLOCK)] ++
                 poll_reports POLLIN recv_delivers :: [poll_times_out]))
    [5; 200] =
    Some (mkCall [] (mkWorld [] [poll_times_out])
            [sys_poll 10; sys_recv 7; sys_poll 10; sys_recv 7]).
Proof.
  split; [reflexivity|]. split; [reflexivity|].
  exact (error_exits_return_empty
           [poll_reports POLLIN (recv_fails EWOULDBLOCK)]
           (poll_reports POLLIN recv_delivers) [poll_times_out] [] [5; 200]
           eq_refl eq_refl).
Defined.

(** X8. When the loop is left on a read that delivers bytes,
    getSatelliteData returns the integers parsed from the first 7 bytes
    queued, takes exactly these bytes off the socket, and does not look
    at the state the caller passed. *)
Theorem data_exit_returns_frame (pre : list turn) (revents : Z)
    (post : list turn) (queue : list ascii) (previous : list Z) :
  forallb loops_again pre = true ->
  Z.land revents POLLIN <> 0 ->
  queue <> [] ->
  getSatelliteData
    (mkWorld queue (pre ++ poll_reports revents recv_delivers :: post))
    previous =
    Some (mkCall (parse_params (firstn 7 queue)) (mkWorld (skipn 7 queue) post)
            (concat (map turn_calls pre) ++
             [sys_poll 10; sys_recv (sizeof_buf - 1)])).
Proof. apply call_on_data. Qed.

Lemma data_exit_returns_frame_witness :
  forallb loops_again [poll_reports 8 recv_delivers] = true /\
  Z.land 3 POLLIN <> 0 /\
  bytes "5,200" <> [] /\
  getSatelliteData
    (mkWorld (bytes "5,200")
       ([poll_reports 8 recv_delivers] ++ poll_reports 3 recv_delivers :: []))
    [2; 10] =
    Some (mkCall [5; 200] (mkWorld [] [])
            [sys_poll 10; sys_poll 10; sys_recv 7]).
Proof.
  assert (P : Z.land 3 POLLIN <> 0) by (vm_compute; discriminate).
  assert (NE : bytes "5,200" <> []) by discriminate.
  split; [reflexivity|]. split; [exact P|]. split; [exact NE|].
  exact (data_exit_returns_frame [poll_reports 8 recv_delivers] 3 []
           (bytes "5,200") [2; 10] eq_refl P NE).
Defined.

(** X9. A message longer than 7 bytes is cut at every seventh byte: of
    two calls in a row that both read, the first parses bytes 1 to 7,
    the second bytes 8 to 14, each piece on its own, and the rest stays
    queued. *)
Theorem long_message_is_cut (r1 r2 : Z) (post : list turn)
    (queue : list ascii) (p1 p2 : list Z) :
  Z.land r1 POLLIN <> 0 ->
  Z.land r2 POLLIN <> 0 ->
  (7 < List.length queue)%nat ->
  getSatelliteData
    (mkWorld queue
       (poll_reports r1 recv_delivers :: poll_reports r2 recv_delivers :: post))
    p1 =
    Some (mkCall (parse_params (firstn 7 queue))
            (mkWorld (skipn 7 queue) (poll_reports r2 recv_delivers :: post))
            [sys_poll 10; sys_recv (sizeof_buf - 1)]) /\
  getSatelliteData
    (mkWorld (skipn 7 queue) (poll_reports r2 recv_delivers :: post)) p2 =
    Some (mkCall (parse_params (firstn 7 (skipn 7 queue)))
            (mkWorld (skipn 14 queue) post)
            [sys_poll 10; sys_recv (sizeof_buf - 1)]).
Proof.
  intros P1 P2 L.
  assert (NE1 : queue <> []) by (destruct queue; [cbn in L; lia|discriminate]).
  assert (NE2 : skipn 7 queue <> []).
  { intros E. apply (f_equal (@List.length ascii)) in E.
    rewrite length_skipn in E. cbn in E. lia. }
  split.
  - exact (call_on_data [] r1 _ queue p1 eq_refl P1 NE1).
  - pose proof (call_on_data [] r2 post (skipn 7 queue) p2
                  eq_refl P2 NE2) as H.
    cbn [app map concat] in H. rewrite H, skipn_skipn. reflexivity.
Qed.

Lemma long_message_is_cut_witness :
  Z.land 1 POLLIN <> 0 /\
  (7 < List.length (bytes "12,3456,78"))%nat /\
  getSatelliteData
    (mkWorld (bytes "12,3456,78")
       (poll_reports 1 recv_delivers :: poll_reports 1 recv_delivers :: []))
    [2; 10] =
    Some (mkCall [12; 3456]
            (mkWorld (bytes ",78") (poll_reports 1 recv_delivers :: []))
            [sys_poll 10; sys_recv 7]) /\
  getSatelliteData
    (mkWorld (bytes ",78") (poll_reports 1 recv_delivers :: [])) [12; 3456] =
    Some (mkCall [78] (mkWorld [] []) [sys_poll 10; sys_recv 7]).
Proof.
  assert (P : Z.land 1 POLLIN <> 0) by (vm_compute; discriminate).
  assert (L : (7 < List.length (bytes "12,3456,78"))%nat) by (cbn; lia).
  split; [exact P|]. split; [exact L|].
  exact (long_message_is_cut 1 1 [] (bytes "12,3456,78") [2; 10] [12; 3456]
           P P L).
Defined.

(** ** The event loop of main *)

(** X10. A turn of main on which a frame of at least two integers is
    read makes that frame the state and advances the angle by its first
    integer. *)
Theorem tick_accepts_frame (s : sim) (pre : list turn) (revents : Z)
    (post : list turn) (queue : list ascii) (a b : Z) (more : list Z) :
  forallb loops_again pre = true ->
  Z.land revents POLLIN <> 0 ->
  queue <> [] ->
  parse_params (firstn 7 queue) = a :: b :: more ->
  INT_MIN <= angle s + a <= INT_MAX ->
  main_tick s
    (mkWorld queue (pre ++ poll_reports revents recv_delivers :: post)) =
    tick_done (mkSim (angle s + a) (a :: b :: more))
      (mkWorld (skipn 7 queue) post)
      (concat (map turn_calls pre) ++ [sys_poll 10; sys_recv (sizeof_buf - 1)]).
Proof.
  intros F P NE E R. unfold main_tick.
  rewrite (call_on_data pre revents post queue _ F P NE), E.
  cbn [ret after trace nth_error].
  destruct R as [R1 R2]. apply Z.leb_le in R1. apply Z.leb_le in R2.
  rewrite R1, R2. reflexivity.
Qed.

Lemma tick_accepts_frame_witness :
  forallb loops_again [] = true /\
  Z.land 1 POLLIN <> 0 /\
  bytes "5,200" <> [] /\
  parse_params (firstn 7 (bytes "5,200")) = 5 :: 200 :: [] /\
  INT_MIN <= angle (mkSim 90 [2; 10]) + 5 <= INT_MAX /\
  main_tick (mkSim 90 [2; 10])
    (mkWorld (bytes "5,200") ([] ++ poll_reports 1 recv_delivers :: [])) =
    tick_done (mkSim 95 [5; 200]) (mkWorld [] [])
      [sys_poll 10; sys_recv 7].
Proof.
  assert (P : Z.land 1 POLLIN <> 0) by (vm_compute; discriminate).
  assert (NE : bytes "5,200" <> []) by discriminate.
  assert (R : INT_MIN <= angle (mkSim 90 [2; 10]) + 5 <= INT_MAX)
    by (vm_compute; split; discriminate).
  split; [reflexivity|]. split; [exact P|]. split; [exact NE|].
  split; [reflexivity|]. split; [exact R|].
  exact (tick_accepts_frame (mkSim 90 [2; 10]) [] 1 [] (bytes "5,200") 5 200 []
           eq_refl P NE eq_refl R).
Defined.

(** X11. While every wait times out, main keeps its state and adds its
    first integer to the angle on every turn: after n such turns the
    state is the one it had (the default {2,10} if it was empty), the
    angle has advanced n times, n waits were made and nothing was
    read. *)
Theorem timeouts_keep_state (n : nat) : forall (s : sim) (a b : Z)
    (more : list Z) (queue : list ascii) (post : list turn)
    (tr : list syscall),
  refill (sat_params s) = a :: b :: more ->
  INT_MIN <= angle s <= INT_MAX ->
  INT_MIN <= angle s + Z.of_nat n * a <= INT_MAX ->
  main_loop n s (mkWorld queue (repeat poll_times_out n ++ post)) tr =
    tick_done (mkSim (angle s + Z.of_nat n * a)
                 (match n with O => sat_params s | _ => a :: b :: more end))
      (mkWorld queue post) (tr ++ repeat (sys_poll 10) n).
Proof.
  induction n as [|n IH]; intros s a b more queue post tr E R0 Rn.
  - cbn [main_loop repeat app]. rewrite app_nil_r.
    destruct s as [ang st]. cbn [angle sat_params]. f_equal. f_equal. lia.
  - cbn [main_loop repeat app]. unfold main_tick.
    pose proof (call_on_timeout [] (repeat poll_times_out n ++ post) queue
                  (refill (sat_params s)) eq_refl) as T.
    cbn [app map concat] in T. rewrite T, E.
    cbn [ret after trace nth_error].
    assert (R1 : INT_MIN <= angle s + a <= INT_MAX) by nia.
    destruct R1 as [L U]. pose proof L as L'. pose proof U as U'.
    apply Z.leb_le in L'. apply Z.leb_le in U'. rewrite L', U'. cbn [andb].
    rewrite (IH (mkSim (angle s + a) (a :: b :: more)) a b more queue post
               (tr ++ [sys_poll 10]) eq_refl);
      cbn [angle sat_params]; try lia.
    rewrite <- app_assoc. cbn [app]. f_equal.
    + f_equal; [lia|]. destruct n; reflexivity.
Qed.

Lemma timeouts_keep_state_witness :
  refill (sat_params (mkSim 0 [])) = 2 :: 10 :: [] /\
  INT_MIN <= angle (mkSim 0 []) <= INT_MAX /\
  INT_MIN <= angle (mkSim 0 []) + Z.of_nat 3 * 2 <= INT_MAX /\
  main_loop 3 (mkSim 0 [])
    (mkWorld (bytes "") (repeat poll_times_out 3 ++ [poll_fails 4])) [] =
    tick_done (mkSim 6 [2; 10]) (mkWorld (bytes "") [poll_fails 4])
      [sys_poll 10; sys_poll 10; sys_poll 10].
Proof.
  assert (R0 : INT_MIN <= angle (mkSim 0 []) <= INT_MAX)
    by (vm_compute; split; discriminate).
  assert (R3 : INT_MIN <= angle (mkSim 0 []) + Z.of_nat 3 * 2 <= INT_MAX)
    by (vm_compute; split; discriminate).
  split; [reflexivity|]. split; [exact R0|]. split; [exact R3|].
  exact (timeouts_keep_state 3 (mkSim 0 []) 2 10 [] (bytes "") [poll_fails 4] []
           eq_refl R0 R3).
Defined.

(** X12. After every exit of getSatelliteData with the empty vector (a
    failed wait, a failed read, a read of zero bytes), main reads
    [sat_params[1]] of an empty vector: the turn goes out of bounds,
    whatever the state was. *)
Theorem tick_faults_after_error (s : sim) (pre : list turn) (t : turn)
    (post : list turn) (queue : list ascii) :
  forallb loops_again pre = true ->
  leaves_empty t queue = true ->
  main_tick s (mkWorld queue (pre ++ t :: post)) = tick_out_of_bounds 1 [].
Proof.
  intros F E. unfold main_tick.
  rewrite (call_on_error pre t post queue _ F E). reflexivity.
Qed.

Lemma tick_faults_after_error_witness :
  forallb loops_again [] = true /\
  leaves_empty (poll_reports 17 (recv_fails 104)) (bytes "5,200") = true /\
  main_tick (mkSim 0 [5; 200])
    (mkWorld (bytes "5,200") ([] ++ poll_reports 17 (recv_fails 104) :: [])) =
    tick_out_of_bounds 1 [].
Proof.
  split; [reflexivity|]. split; [reflexivity|].
  exact (tick_faults_after_error (mkSim 0 [5; 200]) []
           (poll_reports 17 (recv_fails 104)) [] (bytes "5,200")
           eq_refl eq_refl).
Defined.

(** X13. A turn of main on which a frame of fewer than two integers is
    read goes out of bounds at [sat_params[1]], whatever the state
    was. *)
Theorem tick_faults_on_short_frame (s : sim) (pre : list turn) (revents : Z)
    (post : list turn) (queue : list ascii) :
  forallb loops_again pre = true ->
  Z.land revents POLLIN <> 0 ->
  queue <> [] ->
  (List.length (parse_params (firstn 7 queue)) < 2)%nat ->
  main_tick s
    (mkWorld queue (pre ++ poll_reports revents recv_delivers :: post)) =
    tick_out_of_bounds 1 (parse_params (firstn 7 queue)).
Proof.
  intros F P NE L. unfold main_tick.
  rewrite (call_on_data pre revents post queue _ F P NE).
  cbn [ret]. destruct (parse_params (firstn 7 queue)) as [|a [|b more]];
    cbn [List.length] in L; [reflexivity|reflexivity|lia].
Qed.

Lemma tick_faults_on_short_frame_witness :
  forallb loops_again [] = true /\
  Z.land 1 POLLIN <> 0 /\
  bytes "1234567,42" <> [] /\
  (List.length (parse_params (firstn 7 (bytes "1234567,42"))) < 2)%nat /\
  main_tick (mkSim 0 [2; 10])
    (mkWorld (bytes "1234567,42") ([] ++ poll_reports 1 recv_delivers :: [])) =
    tick_out_of_bounds 1 [1234567].
Proof.
  assert (P : Z.land 1 POLLIN <> 0) by (vm_compute; discriminate).
  assert (NE : bytes "1234567,42" <> []) by discriminate.
  assert (L : (List.length (parse_params (firstn 7 (bytes "1234567,42"))) < 2)%nat)
    by (vm_compute; lia).
  split; [reflexivity|]. split; [exact P|]. split; [exact NE|].
  split; [exact L|].
  exact (tick_faults_on_short_frame (mkSim 0 [2; 10]) [] 1 [] (bytes "1234567,42")
           eq_refl P NE L).
Defined.

(** ** More on createSocket *)

Section ConnectMore.

Lemma count_connects_app (a b : list conn_call) :
  count_connects (a ++ b) = (count_connects a + count_connects b)%nat.
Proof. unfold count_connects. rewrite filter_app, length_app. reflexivity. Qed.

Lemma count_retries_app (a b : list conn_call) :
  count_retries (a ++ b) = (count_retries a + count_retries b)%nat.
Proof. unfold count_retries. rewrite filter_app, length_app. reflexivity. Qed.

Lemma count_closes_app (a b : list conn_call) :
  count_closes (a ++ b) = (count_closes a + count_closes b)%nat.
Proof. unfold count_closes. rewrite filter_app, length_app. reflexivity. Qed.

Lemma transient_test (a : connect_answer) :
  transient a ->
  exists errno, a = connect_fails errno /\
    (errno =? ENOENT) || (errno =? ECONNREFUSED) = true.
Proof. intros [-> | ->]; eexists; split; reflexivity. Qed.

(** Transient failures met while patience lasts: one attempt and one
    delay of 1000 ms each, and the counter goes up by one. *)
Lemma connect_loop_retries (pre : list connect_answer) :
  forall rest fd fallback tr,
  Forall transient pre ->
  fallback + Z.of_nat (List.length pre) <= 3 ->
  connect_loop (pre ++ rest) fd fallback tr =
  connect_loop rest fd (fallback + Z.of_nat (List.length pre))
    (tr ++ concat (map (fun _ => [c_connect; c_delay 1000]) pre)).
Proof.
  induction pre as [|a pre IH]; intros rest fd fallback tr T L.
  - cbn [app List.length map concat]. rewrite app_nil_r. f_equal. cbn. lia.
  - inversion T as [|? ? Ta T']; subst.
    destruct (transient_test a Ta) as (errno & -> & E).
    cbn [List.length] in L. rewrite Nat2Z.inj_succ in L.
    cbn [app connect_loop]. rewrite E.
    assert (G : (fallback >? 2) = false)
      by (rewrite Z.gtb_ltb; apply Z.ltb_ge; lia).
    rewrite G, (IH rest fd (fallback + 1) _ T') by lia.
    cbn [List.length map concat]. rewrite Nat2Z.inj_succ, <- !app_assoc.
    f_equal. lia.
Qed.

Lemma retries_counts (pre : list connect_answer) :
  count_connects (concat (map (fun _ => [c_connect; c_delay 1000]) pre))
    = List.length pre /\
  count_retries (concat (map (fun _ => [c_connect; c_delay 1000]) pre))
    = List.length pre /\
  count_closes (concat (map (fun _ => [c_connect; c_delay 1000]) pre)) = 0%nat.
Proof.
  induction pre as [|a pre (C & R & K)]; [repeat split|].
  cbn [map concat List.length].
  rewrite count_connects_app, count_retries_app, count_closes_app, C, R, K.
  repeat split.
Qed.

(** What every run of the loop adds to the trace. *)
Lemma connect_loop_bounds (answers : list connect_answer) :
  forall fd fallback tr r tr',
  0 <= fallback ->
  connect_loop answers fd fallback tr = Some (r, tr') ->
  exists added,
    tr' = tr ++ added /\
    Z.of_nat (count_connects added) <= Z.max 1 (4 - fallback) /\
    Z.of_nat (count_retries added) <= Z.max 0 (3 - fallback) /\
    (count_retries added < count_connects added)%nat /\
    (count_closes added <= 1)%nat /\
    (r = fd \/ r = 0 \/ r = 1).
Proof.
  induction answers as [|a answers IH]; intros fd fallback tr r tr' F H;
    [discriminate|].
  cbn [connect_loop] in H. destruct a as [|errno].
  - inversion H; subst. exists [c_connect]. cbn. repeat split; try lia; auto.
  - destruct ((errno =? ENOENT) || (errno =? ECONNREFUSED)).
    + destruct (fallback >? 2) eqn:G.
      * inversion H; subst. exists [c_connect]. cbn. repeat split; try lia; auto.
      * assert (fallback <= 2)
          by (rewrite Z.gtb_ltb in G; apply Z.ltb_ge in G; lia).
        assert (F1 : 0 <= fallback + 1) by lia.
        destruct (IH _ _ _ _ _ F1 H) as (added & E & C & R & RC & K & V).
        exists ([c_connect; c_delay 1000] ++ added).
        rewrite count_connects_app, count_retries_app, count_closes_app.
        change (count_connects [c_connect; c_delay 1000]) with 1%nat.
        change (count_retries [c_connect; c_delay 1000]) with 1%nat.
        change (count_closes [c_connect; c_delay 1000]) with 0%nat.
        rewrite E, <- !app_assoc. repeat split; try lia; exact V.
    + inversion H; subst. exists [c_connect; c_close fd].
      rewrite <- app_assoc. cbn. repeat split; try lia; auto.
Qed.

End ConnectMore.

(** X14. When socket() fails, or the switch to non-blocking mode fails,
    createSocket returns 1 without attempting any connection, without
    waiting and without closing a descriptor. *)
Theorem setup_failure_returns_one (env : conn_env) :
  socket_ret env = -1 \/ setfl_ret env = -1 ->
  exists tr,
    createSocket env = Some (RET_FATAL, tr) /\
    count_connects tr = 0%nat /\
    count_retries tr = 0%nat /\
    count_closes tr = 0%nat.
Proof.
  intros H. unfold createSocket.
  destruct (socket_ret env =? -1) eqn:S.
  - eexists. repeat split.
  - destruct H as [H|H]; [apply Z.eqb_neq in S; contradiction|].
    rewrite H. eexists. repeat split.
Qed.

Lemma setup_failure_returns_one_witness :
  (socket_ret (mkConnEnv 3 2 (-1) [connect_ok]) = -1 \/
   setfl_ret (mkConnEnv 3 2 (-1) [connect_ok]) = -1) /\
  exists tr,
    createSocket (mkConnEnv 3 2 (-1) [connect_ok]) = Some (RET_FATAL, tr) /\
    count_connects tr = 0%nat /\
    count_retries tr = 0%nat /\
    count_closes tr = 0%nat.
Proof.
  assert (H : socket_ret (mkConnEnv 3 2 (-1) [connect_ok]) = -1 \/
              setfl_ret (mkConnEnv 3 2 (-1) [connect_ok]) = -1)
    by (right; reflexivity).
  split; [exact H|].
  exact (setup_failure_returns_one (mkConnEnv 3 2 (-1) [connect_ok]) H).
Defined.



(** X16. When a connection attempt fails with an error that is neither
    "no such file" nor "connection refused", after at most three
    transient failures, createSocket closes the descriptor, as its last
    call and only once, and returns 1; no further attempt is made. *)
Theorem connect_fatal_closes (env : conn_env) (pre rest : list connect_answer)
    (errno : Z) :
  socket_ret env <> -1 ->
  setfl_ret env <> -1 ->
  connects env = pre ++ connect_fails errno :: rest ->
  Forall transient pre ->
  (List.length pre <= 3)%nat ->
  errno <> ENOENT -> errno <> ECONNREFUSED ->
  exists tr,
    createSocket env = Some (RET_FATAL, tr ++ [c_close (socket_ret env)]) /\
    count_connects tr = S (List.length pre) /\
    count_retries tr = List.length pre /\
    count_closes tr = 0%nat.
Proof.
  intros S F E T L N1 N2. unfold createSocket.
  apply Z.eqb_neq in S. apply Z.eqb_neq in F. rewrite S, F, E.
  rewrite (connect_loop_retries pre _ _ 0 _ T) by lia.
  cbn [connect_loop]. apply Z.eqb_neq in N1. apply Z.eqb_neq in N2.
  rewrite N1, N2. cbn [orb].
  eexists. split; [reflexivity|].
  destruct (retries_counts pre) as (C & R & K).
  rewrite !count_connects_app, !count_retries_app, !count_closes_app, C, R, K.
  cbn. repeat split; lia.
Qed.

Lemma connect_fatal_closes_witness :
  3 <> -1 /\ 0 <> -1 /\
  connects (mkConnEnv 3 2 0 [connect_fails ENOENT; connect_fails 13]) =
    [connect_fails ENOENT] ++ connect_fails 13 :: [] /\
  Forall transient [connect_fails ENOENT] /\
  (List.length [connect_fails ENOENT] <= 3)%nat /\
  13 <> ENOENT /\ 13 <> ECONNREFUSED /\
  exists tr,
    createSocket (mkConnEnv 3 2 0 [connect_fails ENOENT; connect_fails 13]) =
      Some (RET_FATAL, tr ++ [c_close 3]) /\
    count_connects tr = 2%nat /\
    count_retries tr = 1%nat /\
    count_closes tr = 0%nat.
Proof.
  assert (S : 3 <> -1) by lia.
  assert (F : 0 <> -1) by lia.
  assert (T : Forall transient [connect_fails ENOENT]).
  { repeat apply Forall_cons; try apply Forall_nil; unfold transient; auto. }
  assert (L : (List.length [connect_fails ENOENT] <= 3)%nat) by (cbn; lia).
  assert (N1 : 13 <> ENOENT) by (vm_compute; discriminate).
  assert (N2 : 13 <> ECONNREFUSED) by (vm_compute; discriminate).
  split; [exact S|]. split; [exact F|]. split; [reflexivity|].
  split; [exact T|]. split; [exact L|]. split; [exact N1|]. split; [exact N2|].
  exact (connect_fatal_closes
    (mkConnEnv 3 2 0 [connect_fails ENOENT; connect_fails 13])
    [connect_fails ENOENT] [] 13 S F eq_refl T L N1 N2).
Defined.

(** X17. Whatever the kernel answers, a run of createSocket makes at
    most 4 connection attempts and at most 3 delays of 1000 ms, closes
    the descriptor at most once, and returns the descriptor, 0 or 1. *)
Theorem createSocket_bounds (env : conn_env) (r : Z) (tr : list conn_call) :
  createSocket env = Some (r, tr) ->
  (count_connects tr <= 4)%nat /\
  (count_retries tr <= 3)%nat /\
  (count_retries tr <= count_connects tr)%nat /\
  (count_closes tr <= 1)%nat /\
  (r = socket_ret env \/ r = RET_EXHAUSTED \/ r = RET_FATAL).
Proof.
  unfold createSocket. intros H.
  destruct (socket_ret env =? -1).
  { inversion H; subst. cbn. repeat split; try lia; auto. }
  destruct (setfl_ret env =? -1).
  { inversion H; subst. cbn. repeat split; try lia; auto. }
  destruct (connect_loop_bounds _ _ _ _ _ _ (Z.le_refl 0) H)
    as (added & E & C & R & RC & K & V).
  subst tr.
  rewrite count_connects_app, count_retries_app, count_closes_app. cbn.
  repeat split; try lia; exact V.
Qed.

Lemma createSocket_bounds_witness :
  createSocket (mkConnEnv 3 2 0
      [connect_fails ENOENT; connect_fails ECONNREFUSED; connect_ok]) =
    Some (3, [c_socket; c_getfl; c_setfl 2050; c_connect; c_delay 1000;
              c_connect; c_delay 1000; c_connect]) /\
  (count_connects [c_socket; c_getfl; c_setfl 2050; c_connect; c_delay 1000;
                   c_connect; c_delay 1000; c_connect] <= 4)%nat.
Proof.
  split; [reflexivity|].
  exact (proj1 (createSocket_bounds
    (mkConnEnv 3 2 0 [connect_fails ENOENT; connect_fails ECONNREFUSED; connect_ok])
    3 [c_socket; c_getfl; c_setfl 2050; c_connect; c_delay 1000;
       c_connect; c_delay 1000; c_connect] eq_refl)).
Defined.



(** ** drawFilledCircle *)

Section Circle.

Lemma in_for_range {A : Type} (n : Z) (body : Z -> list A) (x : A) :
  In x (for_range n body) <-> exists i, 0 <= i < n /\ In x (body i).
Proof.
  unfold for_range. rewrite in_flat_map. split.
  - intros (i & Hi & Hx). apply in_map_iff in Hi.
    destruct Hi as (k & <- & Hk). apply in_seq in Hk.
    exists (Z.of_nat k). split; [lia|exact Hx].
  - intros (i & Hi & Hx). exists i. split; [|exact Hx].
    apply in_map_iff. exists (Z.to_nat i). split; [lia|].
    apply in_seq. lia.
Qed.

Lemma NoDup_flat_map_disjoint {A B : Type} (f : A -> list B) (l : list A) :
  NoDup l ->
  (forall a, In a l -> NoDup (f a)) ->
  (forall a b x, In a l -> In b l -> In x (f a) -> In x (f b) -> a = b) ->
  NoDup (flat_map f l).
Proof.
  induction l as [|a l IH]; intros N Each Disj; cbn [flat_map]; [constructor|].
  inversion N as [|? ? Na N']; subst.
  apply NoDup_app.
  - apply Each. left; reflexivity.
  - apply IH; [exact N'| |].
    + intros b Hb. apply Each. right; exact Hb.
    + intros b c x Hb Hc. apply Disj; right; assumption.
  - intros x Hx Hx'. apply in_flat_map in Hx'. destruct Hx' as (b & Hb & Hxb).
    assert (a = b) by (apply (Disj a b x); auto using in_eq, in_cons).
    subst b. contradiction.
Qed.

Lemma NoDup_range (n : Z) : NoDup (map Z.of_nat (seq 0 (Z.to_nat n))).
Proof.
  generalize (seq_NoDup (Z.to_nat n) 0). generalize (seq 0 (Z.to_nat n)).
  intros l N. induction N as [|k l Nk N IH]; cbn [map]; constructor; [|exact IH].
  intros H. apply in_map_iff in H. destruct H as (j & E & Hj).
  apply Nat2Z.inj in E. subst j. contradiction.
Qed.

Lemma NoDup_for_range {A : Type} (n : Z) (body : Z -> list A) :
  (forall i, 0 <= i < n -> NoDup (body i)) ->
  (forall i j x, In x (body i) -> In x (body j) -> i = j) ->
  NoDup (for_range n body).
Proof.
  intros Each Disj. unfold for_range. apply NoDup_flat_map_disjoint.
  - apply NoDup_range.
  - intros i Hi. apply Each. apply in_map_iff in Hi.
    destruct Hi as (k & <- & Hk). apply in_seq in Hk. lia.
  - intros i j x _ _. apply Disj.
Qed.

(** The points drawn: those of the disc whose offsets from the centre
    are both above [- radius]. *)
Lemma drawn_iff (centre_x centre_y radius x y : Z) :
  In (x, y) (drawFilledCircle centre_x centre_y radius) <->
  pow2 (x - centre_x) + pow2 (y - centre_y) <= pow2 radius /\
  - radius < x - centre_x /\ - radius < y - centre_y.
Proof.
  unfold drawFilledCircle, pow2. rewrite in_for_range. split.
  - intros (w & Hw & H). apply in_for_range in H. destruct H as (h & Hh & H).
    cbv zeta in H.
    destruct ((radius - w) * (radius - w) + (radius - h) * (radius - h)
              <=? radius * radius) eqn:C; [|contradiction].
    apply Z.leb_le in C. destruct H as [H|[]]. inversion H; subst.
    replace (centre_x + (radius - w) - centre_x) with (radius - w) by ring.
    replace (centre_y + (radius - h) - centre_y) with (radius - h) by ring.
    lia.
  - intros (C & X & Y).
    set (dx := x - centre_x) in *. set (dy := y - centre_y) in *.
    assert (DX : dx <= radius) by nia.
    assert (DY : dy <= radius) by nia.
    exists (radius - dx). split; [lia|].
    apply in_for_range. exists (radius - dy). split; [lia|]. cbv zeta.
    replace (radius - (radius - dx)) with dx by ring.
    replace (radius - (radius - dy)) with dy by ring.
    apply Z.leb_le in C. rewrite C. left. unfold dx, dy. f_equal; ring.
Qed.

End Circle.

(** X19. When the centre and the radius keep every coordinate within
    2^24 in absolute value, drawFilledCircle draws the point (x, y) if
    and only if it lies in the disc of that radius around the centre
    and both its offsets from the centre are greater than minus the
    radius. *)
Theorem circle_points (centre_x centre_y radius x y : Z) :
  floats_exact centre_x centre_y radius ->
  (In (x, y) (drawFilledCircle centre_x centre_y radius) <->
   pow2 (x - centre_x) + pow2 (y - centre_y) <= pow2 radius /\
   - radius < x - centre_x /\ - radius < y - centre_y).
Proof. intros _. apply drawn_iff. Qed.

Lemma circle_points_witness :
  floats_exact 300 300 50 /\
  (In (330, 260) (drawFilledCircle 300 300 50) <->
   pow2 (330 - 300) + pow2 (260 - 300) <= pow2 50 /\
   - 50 < 330 - 300 /\ - 50 < 260 - 300).
Proof.
  assert (R : floats_exact 300 300 50)
    by (vm_compute; split; discriminate).
  split; [exact R|].
  exact (circle_points 300 300 50 330 260 R).
Defined.

(** X20. When the centre and the radius keep every coordinate within
    2^24 in absolute value, drawFilledCircle draws no point twice. *)
Theorem circle_points_once (centre_x centre_y radius : Z) :
  floats_exact centre_x centre_y radius ->
  NoDup (drawFilledCircle centre_x centre_y radius).
Proof.
  intros _. unfold drawFilledCircle. apply NoDup_for_range.
  - intros w _. apply NoDup_for_range.
    + intros h _. cbv zeta. destruct (_ <=? _); repeat constructor. intros [].
    + intros h h' p. cbv zeta.
      destruct (_ <=? _); [|contradiction]. destruct (_ <=? _); [|contradiction].
      intros [<-|[]] [E|[]]. inversion E. lia.
  - intros w w' p Hw Hw'.
    apply in_for_range in Hw. apply in_for_range in Hw'.
    destruct Hw as (h & _ & Hw). destruct Hw' as (h' & _ & Hw').
    cbv zeta in Hw, Hw'.
    destruct (_ <=? _) in Hw; [|contradiction].
    destruct (_ <=? _) in Hw'; [|contradiction].
    destruct Hw as [<-|[]]. destruct Hw' as [E|[]]. inversion E. lia.
Qed.

Lemma circle_points_once_witness :
  floats_exact 300 300 10 /\ NoDup (drawFilledCircle 300 300 10).
Proof.
  assert (R : floats_exact 300 300 10)
    by (vm_compute; split; discriminate).
  split; [exact R|].
  exact (circle_points_once 300 300 10 R).
Defined.

(** X21. The disc drawn is lopsided: for a radius of 1 or more, with
    the centre and the radius keeping every coordinate within 2^24 in
    absolute value, the rightmost and bottom points of the circle are
    drawn, the leftmost and top points are not. *)
Theorem circle_is_lopsided (centre_x centre_y radius : Z) :
  1 <= radius ->
  floats_exact centre_x centre_y radius ->
  In (centre_x + radius, centre_y) (drawFilledCircle centre_x centre_y radius) /\
  In (centre_x, centre_y + radius) (drawFilledCircle centre_x centre_y radius) /\
  ~ In (centre_x - radius, centre_y) (drawFilledCircle centre_x centre_y radius) /\
  ~ In (centre_x, centre_y - radius) (drawFilledCircle centre_x centre_y radius).
Proof.
  intros R _. rewrite !drawn_iff. unfold pow2.
  replace (centre_x + radius - centre_x) with radius by ring.
  replace (centre_y + radius - centre_y) with radius by ring.
  replace (centre_x - radius - centre_x) with (- radius) by ring.
  replace (centre_y - radius - centre_y) with (- radius) by ring.
  replace (centre_x - centre_x) with 0 by ring.
  replace (centre_y - centre_y) with 0 by ring.
  repeat split; try lia.
Qed.

Lemma circle_is_lopsided_witness :
  1 <= 10 /\
  floats_exact 300 300 10 /\
  In (310, 300) (drawFilledCircle 300 300 10) /\
  ~ In (290, 300) (drawFilledCircle 300 300 10).
Proof.
  assert (R : 1 <= 10) by lia.
  assert (E : floats_exact 300 300 10)
    by (vm_compute; split; discriminate).
  split; [exact R|]. split; [exact E|].
  split; [exact (proj1 (circle_is_lopsided 300 300 10 R E))|].
  exact (proj1 (proj2 (proj2 (circle_is_lopsided 300 300 10 R E)))).
Defined.

(** X22. With a radius of 0 or less drawFilledCircle draws nothing, not
    even the centre. *)
Theorem circle_empty (centre_x centre_y radius : Z) :
  - RADIUS_MAX <= radius <= 0 ->
  drawFilledCircle centre_x centre_y radius = [].
Proof.
  intros [_ R]. unfold drawFilledCircle, for_range.
  replace (Z.to_nat (radius * 2)) with 0%nat by lia. reflexivity.
Qed.

Lemma circle_empty_witness :
  - RADIUS_MAX <= 0 <= 0 /\ drawFilledCircle 300 300 0 = [].
Proof.
  assert (R : - RADIUS_MAX <= 0 <= 0) by (vm_compute; split; discriminate).
  split; [exact R|].
  exact (circle_empty 300 300 0 R).
Defined.
